(** * mkdocs-behave: the feature renderer and the navigation integrator

    A shallow embedding of [mkdocs_behave/featureformatter.py] and
    [mkdocs_behave/plugin.py].

    Python values are modelled as follows.
    - [str] is [string]; the characters the code inspects (dot, space,
      double quote, slash, underscore and the letters of the two suffixes)
      are ASCII.
    - A [StringIO] buffer is the text written to it; a method that only
      writes returns the text it writes.
    - An exception is a value of [exn]; a call that can raise returns a
      [result].  A raise discards the partly mutated object, which no
      caller observes because nothing in the plugin catches these.
    - [dict] is an association list in insertion order, [set] is a [gset],
      the class-level [rendered_features] dict is a [gmap].
    - A navigation declaration is a tree: no list object occurs in it twice,
      so in-place mutation of a sub-list is the replacement of that sub-tree. *)

From Stdlib Require Import ZArith Lia Ascii String.
From stdpp Require Import base option list strings gmap.

Set Warnings "-register-all".
Local Open Scope Z_scope.
Local Open Scope nat_scope.

(** ** Python string primitives *)

Module PyStr.

(** The newline and the double quote, which a literal cannot hold. *)
Definition nl : string := String "010"%char "".
Definition dquote : ascii := "034"%char.

(** [s.startswith(p)] *)
Fixpoint startswith (s p : string) : bool :=
  match p, s with
  | "", _ => true
  | String a p', String b s' => if Ascii.eqb a b then startswith s' p' else false
  | String _ _, "" => false
  end.

(** [s.endswith(p)] *)
Fixpoint endswith (s p : string) : bool :=
  if String.eqb s p then true
  else match s with
       | "" => false
       | String _ s' => endswith s' p
       end.

(** [s[n:]] for [0 <= n] *)
Fixpoint slice_from (n : nat) (s : string) : string :=
  match n, s with
  | O, _ => s
  | S n', String _ s' => slice_from n' s'
  | S _, "" => ""
  end.

(** [s[:n]] for [0 <= n] *)
Fixpoint slice_to (n : nat) (s : string) : string :=
  match n, s with
  | O, _ => ""
  | S n', String c s' => String c (slice_to n' s')
  | S _, "" => ""
  end.

(** [sep.join(l)] *)
Definition join (sep : string) (l : list string) : string := String.concat sep l.

(** [s * n] *)
Fixpoint repeat_str (s : string) (n : nat) : string :=
  match n with
  | O => ""
  | S n' => s +:+ repeat_str s n'
  end.

(** [s.count(c)] for a one-character [c] *)
Fixpoint count (c : ascii) (s : string) : nat :=
  match s with
  | "" => 0
  | String a s' => (if Ascii.eqb a c then 1 else 0) + count c s'
  end.

(** [s.split(sep)] for a one-character [sep]: never the empty list. *)
Fixpoint split (sep : ascii) (s : string) : list string :=
  match s with
  | "" => [""]
  | String c s' =>
      if Ascii.eqb c sep then "" :: split sep s'
      else match split sep s' with
           | x :: xs => String c x :: xs
           | [] => [String c ""]
           end
  end.

(** [s.rfind(c)] for a one-character [c]: the last index of [c], or [-1]. *)
Fixpoint rfind (c : ascii) (s : string) : Z :=
  match s with
  | "" => (-1)%Z
  | String a s' =>
      let r := rfind c s' in
      if (0 <=? r)%Z then (r + 1)%Z
      else if Ascii.eqb a c then 0%Z else (-1)%Z
  end.

(** [s.replace(a, b)] for one-character [a] and [b] *)
Fixpoint replace (a b : ascii) (s : string) : string :=
  match s with
  | "" => ""
  | String c s' => String (if Ascii.eqb c a then b else c) (replace a b s')
  end.

Definition is_upper (c : ascii) : bool :=
  (65 <=? nat_of_ascii c) && (nat_of_ascii c <=? 90).
Definition is_lower (c : ascii) : bool :=
  (97 <=? nat_of_ascii c) && (nat_of_ascii c <=? 122).
Definition to_upper (c : ascii) : ascii :=
  if is_lower c then ascii_of_nat (nat_of_ascii c - 32) else c.
Definition to_lower (c : ascii) : ascii :=
  if is_upper c then ascii_of_nat (nat_of_ascii c + 32) else c.

Fixpoint lower (s : string) : string :=
  match s with
  | "" => ""
  | String c s' => String (to_lower c) (lower s')
  end.

(** [s.capitalize()]: first character upper-cased, the others lower-cased.
    The mapping is that of the ASCII letters, and exact on ASCII text;
    Python maps the cased letters outside ASCII too, which are kept here.
    No property of the merge below depends on what the mapping is. *)
Definition capitalize (s : string) : string :=
  match s with
  | "" => ""
  | String c s' => String (to_upper c) (lower s')
  end.

(** Truth value of a string: non-empty. *)
Definition truthy (s : string) : bool :=
  match s with "" => false | _ => true end.

(** The substitution of [format_step]: [re.sub] of the pattern
    quote, group of non-quote characters, quote, by quote, backtick, the
    group, backtick, quote.

    The pattern can only match at a double quote, its group takes the run of
    non-quote characters that follows, and the match succeeds exactly when
    that run is stopped by a second quote; matches are taken leftmost and do
    not overlap.  [sub_outside] copies text up to an opening quote;
    [sub_inside] collects the group in [group]: on the closing quote it emits
    the replacement and resumes after the match, and at the end of the string
    the opening quote found no partner and is copied with what followed. *)
Fixpoint sub_outside (s : string) : string :=
  match s with
  | "" => ""
  | String c s' =>
      if Ascii.eqb c dquote then sub_inside s' ""
      else String c (sub_outside s')
  end
with sub_inside (s : string) (group : string) : string :=
  match s with
  | "" => String dquote group
  | String c s' =>
      if Ascii.eqb c dquote
      then String dquote ("`" +:+ group +:+ "`" +:+ String dquote (sub_outside s'))
      else sub_inside s' (group +:+ String c "")
  end.

Definition re_sub_quoted (s : string) : string := sub_outside s.

End PyStr.

Import PyStr.

(** ** Exceptions *)

(** The [code] of a [SystemExit]: [None], an integer or a message. *)
Inductive ExitCode : Type :=
| CodeNone
| CodeInt (z : Z)
| CodeStr (s : string).

Definition code_truthy (c : ExitCode) : bool :=
  match c with
  | CodeNone => false
  | CodeInt z => negb (z =? 0)%Z
  | CodeStr s => truthy s
  end.

Inductive exn : Type :=
| StopIteration
| KeyError (key : string)
| ValueError (what : string)
| SystemExit (code : ExitCode)
| OtherError (what : string).

Inductive result (A : Type) : Type :=
| Ok (a : A)
| Raise (e : exn).
Arguments Ok {A} a.
Arguments Raise {A} e.

#[global] Instance result_ret : MRet result := fun _ a => Ok a.
#[global] Instance result_bind : MBind result := fun _ _ f m =>
  match m with
  | Ok a => f a
  | Raise e => Raise e
  end.

(** ** featureformatter.py *)

(** A compiled pattern is known by its [search]; the configured mapping is
    ordered. *)
Definition Pattern : Type := string → bool.

Record Step : Type := mkStep {
  step_keyword : string;
  step_name : string;
  step_text : option string
}.

Record Table : Type := mkTable {
  headings : list string;
  rows : list (list string)
}.

(** behave gives an examples table without a name the empty name. *)
Record Examples : Type := mkExamples {
  examples_name : string;
  examples_table : Table
}.

Inductive Scenario : Type :=
| PlainScenario (name : string) (tags : list string) (steps : list Step)
| ScenarioOutline (name : string) (tags : list string) (steps : list Step)
    (examples : list Examples).

Definition scenario_name (s : Scenario) : string :=
  match s with PlainScenario n _ _ | ScenarioOutline n _ _ _ => n end.
Definition scenario_tags (s : Scenario) : list string :=
  match s with PlainScenario _ t _ | ScenarioOutline _ t _ _ => t end.
Definition scenario_steps (s : Scenario) : list Step :=
  match s with PlainScenario _ _ st | ScenarioOutline _ _ st _ => st end.

Record Feature : Type := mkFeature {
  feature_name : string;
  feature_tags : list string;
  feature_description : list string;
  feature_background : option (list Step);
  feature_scenarios : list Scenario
}.

Definition _strip_dots (lines : list string) : list string :=
  map (fun line =>
         if String.eqb line "." || startswith line ". "
         then slice_from 2 line else line) lines.

Definition concat_str (l : list string) : string := foldr String.append "" l.

Section Formatter.

Variable _step_highlight_regexes : list (Pattern * string).

Definition _guess_code_language (step_name : string) : string :=
  match List.find (fun pl => fst pl step_name) _step_highlight_regexes with
  | Some (_, language) => language
  | None => ""
  end.

Definition format_step (step : Step) : string :=
  let name := re_sub_quoted (step_name step) in
  "**" +:+ step_keyword step +:+ "** " +:+ name +:+ "  " +:+ nl +:+
  match step_text step with
  | Some text =>
      if truthy text then
        let block_format := _guess_code_language (step_name step) in
        nl +:+ "```" +:+ block_format +:+ nl +:+ text +:+ nl +:+ "```" +:+ nl
      else ""
  | None => ""
  end.

(** The tag callout written when [tags] is non-empty. *)
Definition format_tags (tags : list string) : string :=
  match tags with
  | [] => ""
  | _ => "!!! note" +:+ nl +:+
         "    " +:+ join " " (map (fun tag => "@" +:+ tag) tags) +:+ nl +:+ nl
  end.

(** The body of the loop over [scenario.examples].  The heading is
    [('#### Examples' + f': {examples.name}' if examples.name else '')]:
    the conditional expression binds looser than [+], so its else branch is
    the whole heading. *)
Definition format_examples (examples : Examples) : string :=
  (if truthy (examples_name examples)
   then "#### Examples" +:+ ": " +:+ examples_name examples
   else "") +:+ nl +:+
  "|" +:+ join "|" (headings (examples_table examples)) +:+ "|" +:+ nl +:+
  repeat_str "|--" (length (headings (examples_table examples))) +:+ "|" +:+ nl +:+
  concat_str (map (fun row =>
                     "|" +:+ join "|" (map (fun cell => "`" +:+ cell +:+ "`") row)
                         +:+ "|" +:+ nl)
                  (rows (examples_table examples))) +:+
  nl.

Definition format_scenario (scenario : Scenario) : string :=
  "### " +:+ scenario_name scenario +:+ nl +:+
  format_tags (scenario_tags scenario) +:+
  concat_str (map format_step (scenario_steps scenario)) +:+
  nl +:+
  match scenario with
  | ScenarioOutline _ _ _ examples => concat_str (map format_examples examples)
  | PlainScenario _ _ _ => ""
  end.

Definition format_background (steps : list Step) : string :=
  "## Background" +:+ nl +:+ nl +:+ concat_str (map format_step steps).

(** The description loop of [feature]: one write per stripped line. *)
Definition format_description (description : list string) : string :=
  concat_str (map (fun line => line +:+ nl) (_strip_dots description)).

Definition feature (f : Feature) : string :=
  "# " +:+ feature_name f +:+ nl +:+
  format_tags (feature_tags f) +:+
  format_description (feature_description f) +:+
  nl +:+
  match feature_background f with
  | Some steps => format_background steps
  | None => ""
  end +:+
  "## Scenarios" +:+ nl +:+
  concat_str (map format_scenario (feature_scenarios f)).

(** [uri], then [feature], then [eof] for one file: the entry that [eof]
    stores in the class-level [rendered_features]. *)
Definition uri (filename : string) : string :=
  "<!-- Generated from " +:+ filename +:+ " -->" +:+ nl +:+ nl.

Definition render_file (rendered_features : gmap string string)
    (filename : string) (f : Feature) : gmap string string :=
  <[filename := uri filename +:+ feature f]> rendered_features.

End Formatter.


(** ** pathlib.PurePosixPath

    A path is kept parsed, as pathlib does: the root and the list of the
    components after it.  POSIX paths have no drive. *)

Module Path.

Record t : Type := mk { root : string; tail : list string }.

#[global] Instance eq_dec : EqDecision t.
Proof. solve_decision. Defined.

(** [posixpath.splitroot]: one leading slash, or three and more, make the
    root a single slash; exactly two are kept. *)
Definition splitroot (p : string) : string * string :=
  if negb (String.eqb (slice_to 1 p) "/") then ("", p)
  else if negb (String.eqb (slice_to 1 (slice_from 1 p)) "/")
          || String.eqb (slice_to 1 (slice_from 2 p)) "/"
       then ("/", slice_from 1 p)
       else (slice_to 2 p, slice_from 2 p).

Definition keep_part (x : string) : bool :=
  negb (String.eqb x "") && negb (String.eqb x ".").

(** [Path(s)]: empty components and single dots are dropped. *)
Definition of_str (s : string) : t :=
  let '(root, rel) := splitroot s in
  mk root (List.filter keep_part (split "/" rel)).

(** [str(p)] *)
Definition to_str (p : t) : string :=
  let s := root p +:+ join "/" (tail p) in
  if truthy s then s else ".".

(** [p.name] *)
Definition name (p : t) : string := List.last (tail p) "".

(** [p.suffix] and [p.stem], both cut at the last dot of the name unless it
    is the first or the last character. *)
Definition suffix (p : t) : string :=
  let name := name p in
  let i := rfind "." name in
  if (0 <? i)%Z && (i <? Z.of_nat (String.length name) - 1)%Z
  then slice_from (Z.to_nat i) name else "".

Definition stem (p : t) : string :=
  let name := name p in
  let i := rfind "." name in
  if (0 <? i)%Z && (i <? Z.of_nat (String.length name) - 1)%Z
  then slice_to (Z.to_nat i) name else name.

(** [p.with_suffix(suffix)] for a suffix that is a dot followed by letters,
    as both suffixes of the plugin are. *)
Definition with_suffix (p : t) (suffix' : string) : result t :=
  let name := name p in
  if negb (truthy name) then Raise (ValueError "empty name")
  else
    let old_suffix := suffix p in
    let name :=
      if negb (truthy old_suffix) then name +:+ suffix'
      else slice_to (String.length name - String.length old_suffix) name +:+ suffix' in
    Ok (mk (root p) (removelast (tail p) ++ [name])).

(** [p.parent] *)
Definition parent (p : t) : t :=
  match tail p with
  | [] => p
  | _ => mk (root p) (removelast (tail p))
  end.

(** [p.parts] *)
Definition parts (p : t) : list string :=
  if truthy (root p) then root p :: tail p else tail p.

(** [p.relative_to(other)]: [other] has to be [p] or one of its parents. *)
Definition relative_to (p other : t) : result t :=
  if String.eqb (root p) (root other)
     && bool_decide (tail other `prefix_of` tail p)
  then Ok (mk "" (drop (length (tail other)) (tail p)))
  else Raise (ValueError "not in the subpath").

End Path.

(** ** The navigation tree

    [NavTree = List[Union[str, Dict[str, NavTree]]]]: a dict keeps its items
    in insertion order and may hold several. *)

#[local] Unset Elimination Schemes.
Inductive NavElement : Type :=
| Leaf (path : string)
| Group (d : list (string * list NavElement)).
#[local] Set Elimination Schemes.

Abbreviation NavTree := (list NavElement).
Abbreviation NavDict := (list (string * list NavElement)).

(** [element in nav_entry] for a string [element]: a string equals no dict. *)
Definition leaf_in (element : string) (nav_entry : NavTree) : bool :=
  existsb (fun entry => match entry with
                        | Leaf s => String.eqb s element
                        | Group _ => false
                        end) nav_entry.

(** [name in d] and [d[name]] *)
Definition dict_get (name : string) (d : NavDict) : option NavTree :=
  snd <$> List.find (fun kv => String.eqb (fst kv) name) d.

(** [d[name] = v] for a key that is present *)
Fixpoint dict_set (name : string) (v : NavTree) (d : NavDict) : NavDict :=
  match d with
  | [] => []
  | (k, x) :: d' =>
      if String.eqb k name then (k, v) :: d' else (k, x) :: dict_set name v d'
  end.

(** [next((entry[name] for entry in nav_entry
           if isinstance(entry, dict) and name in entry), None)] *)
Fixpoint find_group (name : string) (nav_entry : NavTree) : option NavTree :=
  match nav_entry with
  | [] => None
  | Leaf _ :: rest => find_group name rest
  | Group d :: rest =>
      match dict_get name d with
      | Some sub => Some sub
      | None => find_group name rest
      end
  end.

(** The list that [find_group] returned is mutated in place: its new
    contents [v] stand where it was found. *)
Fixpoint set_group (name : string) (v : NavTree) (nav_entry : NavTree) : NavTree :=
  match nav_entry with
  | [] => []
  | Leaf s :: rest => Leaf s :: set_group name v rest
  | Group d :: rest =>
      match dict_get name d with
      | Some _ => Group (dict_set name v d) :: rest
      | None => Group d :: set_group name v rest
      end
  end.

(** ** plugin.py *)

(** *** [_build_feature_tree]

    [add_feature] is the body of the outer loop for one path: it walks
    [working_tree] down the directory parts, creating the groups that are
    missing, and appends the leaf. *)
Fixpoint add_feature (parts : list string) (leaf : string)
    (working_tree : NavTree) : NavTree :=
  match parts with
  | [] => working_tree ++ [Leaf leaf]
  | part :: parts' =>
      match find_group part working_tree with
      | Some sub_tree =>
          set_group part (add_feature parts' leaf sub_tree) working_tree
      | None =>
          working_tree ++ [Group [(part, add_feature parts' leaf [])]]
      end
  end.

Definition _build_feature_tree (feature_paths : list Path.t) : NavTree :=
  fold_left
    (fun feature_tree feature_path =>
       add_feature (drop 1 (Path.parts (Path.parent feature_path)))
                   (Path.to_str feature_path) feature_tree)
    feature_paths [].

(** *** [_merge_features_into_nav] *)

(** [name.replace('_', ' ').capitalize()] *)
Definition display_name (name : string) : string :=
  capitalize (replace "_" " " name).

(** One turn of the loop of [merge], for [element]; the inner function is
    the loop, and so [merge] itself.
    [next(iter(element.items()))] raises [StopIteration] on an empty dict. *)
Fixpoint merge_element (element : NavElement) (nav_entry : NavTree)
    {struct element} : result NavTree :=
  match element with
  | Leaf s =>
      Ok (if leaf_in s nav_entry then nav_entry else nav_entry ++ [Leaf s])
  | Group [] => Raise StopIteration
  | Group ((name, sub_feature_entry) :: _) =>
      let name := display_name name in
      let merge :=
        fix merge (nav_entry feature_entry : NavTree) {struct feature_entry}
            : result NavTree :=
          match feature_entry with
          | [] => Ok nav_entry
          | element :: rest =>
              nav_entry' ← merge_element element nav_entry;
              merge nav_entry' rest
          end in
      match find_group name nav_entry with
      | Some sub_nav_entry =>
          sub ← merge sub_nav_entry sub_feature_entry;
          Ok (set_group name sub nav_entry)
      | None =>
          sub ← merge [] sub_feature_entry;
          Ok (nav_entry ++ [Group [(name, sub)]])
      end
  end.

Fixpoint merge (nav_entry feature_entry : NavTree) {struct feature_entry}
  : result NavTree :=
  match feature_entry with
  | [] => Ok nav_entry
  | element :: rest =>
      nav_entry' ← merge_element element nav_entry;
      merge nav_entry' rest
  end.

Definition _merge_features_into_nav (nav_tree feature_tree : NavTree)
  : result NavTree :=
  merge nav_tree feature_tree.

(** *** [_get_feature_paths_in_nav]

    [next(iter(element.values()))] is the value of the first key. *)
Fixpoint find_element (element : NavElement) : result (list Path.t) :=
  match element with
  | Leaf s => Ok (if endswith s ".feature" then [Path.of_str s] else [])
  | Group [] => Raise StopIteration
  | Group ((_, sub_nav_entry) :: _) =>
      (fix find (nav_entry : NavTree) : result (list Path.t) :=
         match nav_entry with
         | [] => Ok []
         | element :: rest =>
             paths ← find_element element;
             paths' ← find rest;
             Ok (paths ++ paths')
         end) sub_nav_entry
  end.

Fixpoint find (nav_entry : NavTree) : result (list Path.t) :=
  match nav_entry with
  | [] => Ok []
  | element :: rest =>
      paths ← find_element element;
      paths' ← find rest;
      Ok (paths ++ paths')
  end.

Definition _get_feature_paths_in_nav (nav_tree : NavTree) : result (list Path.t) :=
  find nav_tree.

(** *** [_rename_features_in_nav] *)
Fixpoint process_element (element : NavElement) : result NavElement :=
  match element with
  | Leaf s =>
      if endswith s ".feature"
      then p ← Path.with_suffix (Path.of_str s) ".md"; Ok (Leaf (Path.to_str p))
      else Ok (Leaf s)
  | Group [] => Raise StopIteration
  | Group ((k, sub_nav_entry) :: d) =>
      sub ← (fix process (nav_entry : NavTree) : result NavTree :=
               match nav_entry with
               | [] => Ok []
               | element :: rest =>
                   element' ← process_element element;
                   rest' ← process rest;
                   Ok (element' :: rest')
               end) sub_nav_entry;
      Ok (Group ((k, sub) :: d))
  end.

Fixpoint process (nav_entry : NavTree) : result NavTree :=
  match nav_entry with
  | [] => Ok []
  | element :: rest =>
      element' ← process_element element;
      rest' ← process rest;
      Ok (element' :: rest')
  end.

Definition _rename_features_in_nav (nav_tree : NavTree) : result NavTree :=
  process nav_tree.

(** *** [_ensure_features_entry]

    The entry returned is the very list held under [heading]: the pair is
    the tree after the call and the contents of that list. *)
Definition _ensure_features_entry (nav_tree : NavTree) (heading : string)
  : NavTree * NavTree :=
  match find_group heading nav_tree with
  | Some features_entry => (nav_tree, features_entry)
  | None => (nav_tree ++ [Group [(heading, [])]], [])
  end.

(** *** The process and the plugin object *)

(** What of the interpreter the plugin reads and writes: [sys.argv], the
    module global [ConfiguredFeatureFormatter] (known by the patterns it was
    configured with), the class-level [rendered_features] and the log. *)
Record World : Type := mkWorld {
  argv : list string;
  ConfiguredFeatureFormatter : option (list (Pattern * string));
  rendered_features : gmap string string;
  log : list string
}.

Definition set_argv (a : list string) (w : World) : World :=
  mkWorld a (ConfiguredFeatureFormatter w) (rendered_features w) (log w).
Definition set_formatter (f : list (Pattern * string)) (w : World) : World :=
  mkWorld (argv w) (Some f) (rendered_features w) (log w).
Definition log_warning (msg : string) (w : World) : World :=
  mkWorld (argv w) (ConfiguredFeatureFormatter w) (rendered_features w)
          (log w ++ [msg]).

Record BehavePluginConfig : Type := mkConfig {
  features_dir : string;
  nav_heading : string;
  populate : bool;
  warn_missing : bool
}.

Record BehavePlugin : Type := mkPlugin {
  config : BehavePluginConfig;
  _step_highlight_regexes : list (Pattern * string);
  _handled_feature_files : gset string
}.

Definition behave_argv : list string :=
  [""; "--dry-run"; "--no-summary"; "--format";
   "mkdocs_behave.plugin:ConfiguredFeatureFormatter"].

(** The virtual file of [_build_feature_files]; its inclusion level is
    always [INCLUDED] and it always uses directory urls. *)
Record File : Type := mkFile {
  file_path : string;
  file_src_dir : string;
  file_dest_dir : string;
  file_dest_uri : string
}.

(** [p / x] for a single component [x], by [os.path.join] and a new parse. *)
Definition joinpath (p : Path.t) (x : string) : Path.t :=
  let a := Path.to_str p in
  Path.of_str (if endswith a "/" then a +:+ x else a +:+ "/" +:+ x).

Definition _build_feature_files (cwd site_dir : string)
    (feature_paths : list Path.t) : result (list File) :=
  mapM (fun feature_path =>
          md ← Path.with_suffix feature_path ".md";
          Ok (mkFile (Path.to_str md) cwd site_dir
                (Path.to_str (joinpath (Path.parent feature_path)
                                       (Path.stem feature_path))
                 +:+ "/index.html")))
       feature_paths.

Section Plugin.

(** The nested run of [behave.__main__] under [run_module]: whatever it does
    to the world, it returns or raises. *)
Variable run_module : World → World * option exn.

(** [_run_behave]: the [try] body, the [except SystemExit] clause and the
    [finally] clause, in that order. *)
Definition _run_behave (self : BehavePlugin) (w : World) : World * option exn :=
  let w := set_formatter (_step_highlight_regexes self) w in
  let saved_argv := argv w in
  let '(w, raised) := run_module (set_argv behave_argv w) in
  let '(w, raised) :=
    match raised with
    | Some (SystemExit code) =>
        ((if code_truthy code
          then log_warning
                 "Behave did not complete successfully. Some features may not have been processed."
                 w
          else w), None)
    | _ => (w, raised)
    end in
  (set_argv saved_argv w, raised).

(** What [on_files] leaves behind: the mutated [config.nav], the plugin
    object, the extended file collection and the world. *)
Record OnFiles : Type := mkOnFiles {
  out_nav : NavTree;
  out_self : BehavePlugin;
  out_files : list File;
  out_world : World
}.

(** [on_files]; [cwd] is the working directory, [all_feature_paths] the
    sorted listing that [rglob] gives for the feature files under the
    features directory taken relative to it, which holds no path twice, and
    [files] the collection given.  [relative_to] raises when the features
    directory is not under the working directory. *)
Definition on_files (self : BehavePlugin) (cwd site_dir : string)
    (all_feature_paths : list Path.t) (files : list File)
    (nav_tree : NavTree) (w : World) : result OnFiles :=
  let '(w, raised) := _run_behave self w in
  match raised with
  | Some e => Raise e
  | None =>
      let '(nav_tree, features_entry) :=
        _ensure_features_entry nav_tree (nav_heading (config self)) in
      features_dir ←
        Path.relative_to (Path.of_str (features_dir (config self)))
                         (Path.of_str cwd);
      '(feature_paths, features_entry, w) ←
        (if populate (config self) then
           let feature_paths := all_feature_paths in
           let feature_tree := _build_feature_tree feature_paths in
           features_entry ← _merge_features_into_nav features_entry feature_tree;
           Ok (feature_paths, features_entry, w)
         else
           feature_paths ← _get_feature_paths_in_nav features_entry;
           let w :=
             if warn_missing (config self) then
               fold_left
                 (fun w missing =>
                    log_warning
                      ("Feature file '" +:+ Path.to_str missing +:+
                       "' is present on disk, but is not included in the 'nav' configuration.")
                      w)
                 (List.filter (fun p => negb (bool_decide (p ∈ feature_paths)))
                              all_feature_paths)
                 w
             else w in
           Ok (feature_paths, features_entry, w));
      features_entry ← _rename_features_in_nav features_entry;
      let nav_tree := set_group (nav_heading (config self)) features_entry nav_tree in
      outside ← _get_feature_paths_in_nav nav_tree;
      let w :=
        match outside with
        | [] => w
        | _ => log_warning
                 "Feature files are present in the 'nav' configuration outside the configured heading."
                 w
        end in
      feature_files ← _build_feature_files cwd site_dir feature_paths;
      handled ← mapM (fun path => md ← Path.with_suffix path ".md";
                                  Ok (Path.to_str md)) feature_paths;
      Ok (mkOnFiles nav_tree
            (mkPlugin (config self) (_step_highlight_regexes self)
                      (list_to_set handled))
            (files ++ feature_files) w)
  end.

(** [on_page_read_source] for the page whose file has source uri [src_uri]:
    [Ok None] leaves the page to the default handling. *)
Definition on_page_read_source (self : BehavePlugin) (w : World)
    (src_uri : string) : result (option string) :=
  if bool_decide (src_uri ∈ _handled_feature_files self) then
    feature_path ← Path.with_suffix (Path.of_str src_uri) ".feature";
    let feature_path := Path.to_str feature_path in
    match rendered_features w !! feature_path with
    | Some text => Ok (Some text)
    | None => Raise (KeyError feature_path)
    end
  else Ok None.

End Plugin.

(** ** Vocabulary of the properties *)

(** What the description loop may write for a source line. *)
Definition stripped (line out : string) : Prop :=
  (line = "." → out = "") ∧
  (∀ r, line = ". " +:+ r → out = r) ∧
  (line ≠ "." → (∀ r, line ≠ ". " +:+ r) → out = line).

(** A text with the quoted substrings [segs]: each is a pair of the text
    before the opening quote and the text between the quotes, and [rest]
    follows the last closing quote.  [mark] is applied to what is between
    the quotes. *)
Fixpoint quoted_text (mark : string → string) (segs : list (string * string))
    (rest : string) : string :=
  match segs with
  | [] => rest
  | (before, body) :: segs' =>
      before +:+ String dquote (mark body +:+ String dquote (quoted_text mark segs' rest))
  end.

Definition inline_code (body : string) : string := "`" +:+ body +:+ "`".

Definition quote_free (s : string) : Prop := count dquote s = 0.

(** The segments hold no quote of their own and [rest] holds no further
    quoted substring: at most one quote. *)
Definition well_quoted (segs : list (string * string)) (rest : string) : Prop :=
  Forall (fun seg => quote_free (fst seg) ∧ quote_free (snd seg)) segs ∧
  count dquote rest ≤ 1.

(** [nav_entry] already holds what merging [element] would add: the leaf
    itself, or a group under the display name that holds, level by level,
    what the first item of the dict holds. *)
Inductive absorbs : NavTree → NavElement → Prop :=
| absorbs_leaf nav_entry s :
    leaf_in s nav_entry = true → absorbs nav_entry (Leaf s)
| absorbs_group nav_entry name sub d sub_nav_entry :
    find_group (display_name name) nav_entry = Some sub_nav_entry →
    Forall (absorbs sub_nav_entry) sub →
    absorbs nav_entry (Group ((name, sub) :: d)).

(** Merging never takes away what was absorbed. *)
Definition keeps_absorbed (element : NavElement) : Prop :=
  ∀ nav nav' : NavTree, merge_element element nav = Ok nav' →
    ∀ e, absorbs nav e → absorbs nav' e.

(** The group names of one level: the keys of its dict entries, in order. *)
Definition group_names (nav_entry : NavTree) : list string :=
  flat_map (fun entry => match entry with
                         | Leaf _ => []
                         | Group d => map fst d
                         end) nav_entry.

(** At most one mapping entry per group name, at every level. *)
Inductive unique_groups : NavTree → Prop :=
| unique_groups_level nav_entry :
    NoDup (group_names nav_entry) →
    (∀ d k v, Group d ∈ nav_entry → (k, v) ∈ d → unique_groups v) →
    unique_groups nav_entry.

(** What the order of a level is made of: a leaf by its path, a mapping
    entry by its keys. *)
Definition entry_shape (entry : NavElement) : string + list string :=
  match entry with
  | Leaf s => inl s
  | Group d => inr (map fst d)
  end.

Definition keeps_unique (element : NavElement) : Prop :=
  ∀ nav nav' : NavTree, merge_element element nav = Ok nav' →
    unique_groups nav → unique_groups nav'.

(** The tree without the second and later keys of the dicts, at every level
    under first keys. *)
Fixpoint prune_element (element : NavElement) : NavElement :=
  match element with
  | Leaf s => Leaf s
  | Group [] => Group []
  | Group ((k, v) :: _) => Group [(k, map prune_element v)]
  end.

Definition prune (nav_entry : NavTree) : NavTree := map prune_element nav_entry.

(** The items under second and later keys, of the dicts met under first
    keys, in order. *)
Fixpoint later_items_element (element : NavElement) : list NavDict :=
  match element with
  | Leaf _ => []
  | Group [] => []
  | Group ((_, v) :: later) => later :: flat_map later_items_element v
  end.

Definition later_items (nav_entry : NavTree) : list NavDict :=
  flat_map later_items_element nav_entry.

(** A component that a parsed path can hold, and a path as the parser
    gives it. *)
Definition valid_part (x : string) : Prop :=
  x ≠ "" ∧ x ≠ "." ∧ count "/" x = 0.

Definition valid_path (p : Path.t) : Prop :=
  (Path.root p = "" ∨ Path.root p = "/" ∨ Path.root p = "//") ∧
  Forall valid_part (Path.tail p).

(** The navigation tree of the data model: every mapping has one key. *)
Inductive single_key : NavElement → Prop :=
| single_key_leaf s : single_key (Leaf s)
| single_key_group k v : Forall single_key v → single_key (Group [(k, v)]).

(** Two trees of one shape, mapping by mapping and key by key, whose leaves
    correspond one to one and are related by [R]. *)
Inductive leafwise (R : string → string → Prop) : NavElement → NavElement → Prop :=
| leafwise_leaf s s' : R s s' → leafwise R (Leaf s) (Leaf s')
| leafwise_group d d' :
    Forall2 (fun kv kv' => fst kv = fst kv' ∧
                           Forall2 (leafwise R) (snd kv) (snd kv')) d d' →
    leafwise R (Group d) (Group d').

(** What the rewrite makes of a leaf: with the feature suffix, a path with
    the document suffix, in the same directory and with the same stem;
    otherwise the leaf itself. *)
Definition renamed_leaf (s s' : string) : Prop :=
  (endswith s ".feature" = true →
   endswith s' ".md" = true ∧
   Path.parent (Path.of_str s') = Path.parent (Path.of_str s) ∧
   Path.stem (Path.of_str s') = Path.stem (Path.of_str s)) ∧
  (endswith s ".feature" = false → s' = s).

(** Every leaf of a tree, under every key, depth first. *)
Fixpoint leaves_element (element : NavElement) : list string :=
  match element with
  | Leaf s => [s]
  | Group d => flat_map (fun kv => flat_map leaves_element (snd kv)) d
  end.

Definition leaves (nav_entry : NavTree) : list string :=
  flat_map leaves_element nav_entry.

(** The leaves of one level, in order. *)
Definition top_leaves (nav_entry : NavTree) : list string :=
  flat_map (fun entry => match entry with
                         | Leaf s => [s]
                         | Group _ => []
                         end) nav_entry.

(** The display names under which the groups of a source level are merged:
    those of the first keys. *)
Definition merged_names (feature_entry : NavTree) : list string :=
  flat_map (fun element => match element with
                           | Group ((name, _) :: _) => [display_name name]
                           | _ => []
                           end) feature_entry.

(** [s.replace(c, '')] for a one-character [c] *)
Fixpoint remove_char (c : ascii) (s : string) : string :=
  match s with
  | "" => ""
  | String a s' =>
      if Ascii.eqb a c then remove_char c s' else String a (remove_char c s')
  end.

Definition has_feature_suffix (s : string) : bool := endswith s ".feature".

(** * Properties *)

(** ** Strings *)

Module StrFacts.

Lemma app_cons c s t : String c s +:+ t = String c (s +:+ t).
Proof. reflexivity. Qed.

Lemma app_nil_l s : "" +:+ s = s.
Proof. reflexivity. Qed.

Lemma app_nil_r s : s +:+ "" = s.
Proof. induction s as [|c s IH]; [done|]. by rewrite app_cons, IH. Qed.

Lemma app_assoc s t u : (s +:+ t) +:+ u = s +:+ (t +:+ u).
Proof. induction s as [|c s IH]; [done|]. by rewrite !app_cons, IH. Qed.

Lemma length_app s t : String.length (s +:+ t) = String.length s + String.length t.
Proof. induction s as [|c s IH]; [done|]. rewrite app_cons. simpl. by rewrite IH. Qed.

Lemma count_app c s t : count c (s +:+ t) = count c s + count c t.
Proof.
  induction s as [|a s IH]; [done|].
  rewrite app_cons. simpl. rewrite IH. lia.
Qed.

Lemma startswith_app s p : startswith (p +:+ s) p = true.
Proof.
  induction p as [|a p IH]; [by destruct s|].
  rewrite app_cons. simpl. by rewrite Ascii.eqb_refl.
Qed.

Lemma startswith_inv s p : startswith s p = true → ∃ r, s = p +:+ r.
Proof.
  revert s. induction p as [|a p IH]; intros s H.
  - by exists s.
  - destruct s as [|b s]; [done|]. simpl in H.
    destruct (Ascii.eqb_spec a b) as [->|]; [|done].
    destruct (IH _ H) as [r ->]. by exists r.
Qed.

Lemma endswith_app s p : endswith (s +:+ p) p = true.
Proof.
  induction s as [|a s IH].
  - rewrite app_nil_l. destruct p; cbn [endswith]; by rewrite String.eqb_refl.
  - rewrite app_cons. cbn [endswith]. rewrite IH. by destruct (String.eqb _ _).
Qed.

Lemma endswith_inv s p : endswith s p = true → ∃ r, s = r +:+ p.
Proof.
  induction s as [|a s IH]; cbn [endswith].
  - destruct (String.eqb_spec "" p) as [<-|]; [|done]. by exists "".
  - destruct (String.eqb_spec (String a s) p) as [<-|].
    + by exists "".
    + intros [r ->]%IH. by exists (String a r).
Qed.

Lemma length_zero s : String.length s = 0 → s = "".
Proof. by destruct s. Qed.

Lemma slice_from_app s t : slice_from (String.length s) (s +:+ t) = t.
Proof. induction s as [|c s IH]; [done|]. by rewrite app_cons. Qed.

Lemma slice_to_app s t : slice_to (String.length s) (s +:+ t) = s.
Proof.
  induction s as [|c s IH]; [done|]. rewrite app_cons. simpl. by rewrite IH.
Qed.

Lemma rfind_absent c s : count c s = 0 → rfind c s = (-1)%Z.
Proof.
  induction s as [|a s IH]; [done|]. simpl.
  destruct (Ascii.eqb a c); [done|]. intros H. by rewrite IH.
Qed.

Lemma rfind_last c s t :
  count c t = 0 → rfind c (s +:+ String c t) = Z.of_nat (String.length s).
Proof.
  intros Ht. induction s as [|a s IH].
  - rewrite app_nil_l. simpl. by rewrite (rfind_absent _ _ Ht), Ascii.eqb_refl.
  - rewrite app_cons. cbn [rfind String.length]. rewrite IH.
    destruct (Z.leb_spec 0 (Z.of_nat (String.length s))); lia.
Qed.

Lemma split_cons sep s : ∃ x xs, split sep s = x :: xs.
Proof.
  induction s as [|c s (x & xs & IH)]; simpl; [by eexists _, _|].
  destruct (Ascii.eqb c sep); [by eexists _, _|]. rewrite IH. by eexists _, _.
Qed.

Lemma split_no_sep sep s : Forall (fun x => count sep x = 0) (split sep s).
Proof.
  induction s as [|c s IH]; simpl; [by repeat constructor|].
  destruct (Ascii.eqb c sep) eqn:E; [by constructor|].
  destruct (split sep s) as [|x xs]; [by repeat constructor; simpl; rewrite E|].
  apply Forall_cons in IH as [Hx Hxs]. constructor; [|done].
  simpl. by rewrite E.
Qed.

Lemma split_free sep s : count sep s = 0 → split sep s = [s].
Proof.
  induction s as [|c s IH]; [done|]. simpl.
  destruct (Ascii.eqb c sep); [done|]. intros H. by rewrite IH.
Qed.

Lemma split_app_sep sep s t :
  count sep s = 0 → split sep (s +:+ String sep t) = s :: split sep t.
Proof.
  induction s as [|c s IH].
  - intros _. rewrite app_nil_l. simpl. by rewrite Ascii.eqb_refl.
  - rewrite app_cons. simpl. destruct (Ascii.eqb c sep); [done|].
    intros H. by rewrite IH.
Qed.

(** A text without separator after the last separator of [s] goes to the
    last piece. *)
Lemma split_app_free sep s t :
  count sep t = 0 →
  split sep (s +:+ t) =
  removelast (split sep s) ++ [List.last (split sep s) "" +:+ t].
Proof.
  intros Ht. induction s as [|c s IH].
  - rewrite app_nil_l. simpl. by apply split_free.
  - rewrite app_cons. cbn [split]. rewrite IH.
    destruct (split_cons sep s) as (x & xs & Hs). rewrite Hs.
    destruct (Ascii.eqb c sep).
    + done.
    + destruct xs as [|y ys]; [done|]. done.
Qed.

Lemma join_snoc sep l x : ∃ pre, join sep (l ++ [x]) = pre +:+ x.
Proof.
  unfold join. induction l as [|y l (pre & IH)]; [by exists ""|].
  simpl. destruct (l ++ [x]) as [|z zs] eqn:E.
  - by destruct l.
  - rewrite IH. exists (y +:+ sep +:+ pre). by rewrite !app_assoc.
Qed.

Lemma join_cons sep x l :
  join sep (x :: l) = x +:+ match l with [] => "" | _ => sep +:+ join sep l end.
Proof. unfold join. destruct l; simpl; by rewrite ?app_nil_r. Qed.

Lemma split_join sep l :
  l ≠ [] → Forall (fun x => count sep x = 0) l →
  split sep (join (String sep "") l) = l.
Proof.
  intros Hne Hl. induction Hl as [|x l Hx Hl IH]; [done|].
  rewrite join_cons. destruct l as [|y l].
  - rewrite app_nil_r. by apply split_free.
  - rewrite app_cons, app_nil_l, split_app_sep by done. by rewrite IH.
Qed.

Lemma endswith_differs s p q a b :
  a ≠ b → endswith s (p +:+ String a "") = true →
  endswith s (q +:+ String b "") = false.
Proof.
  intros Hab [r ->]%endswith_inv.
  destruct (endswith _ (q +:+ _)) eqn:E; [|done].
  apply endswith_inv in E as [r' E].
  assert (String.rev (r +:+ p +:+ String a "") =
          String.rev (r' +:+ q +:+ String b "")) as Hrev by (by rewrite E).
  assert (∀ x c, String.rev (x +:+ String c "") = String c (String.rev x)) as Hr.
  { intros x c. unfold String.rev.
    assert (∀ y acc, String.rev_app (y +:+ String c "") acc =
                     String c (String.rev_app y acc)) as H.
    { induction y as [|d y IH]; intros acc; [done|].
      rewrite app_cons. simpl. by rewrite IH. }
    apply H. }
  rewrite <- !app_assoc, !Hr in Hrev. by injection Hrev.
Qed.

End StrFacts.

(** ** The feature renderer *)

Section FormatterFacts.

Variable regexes : list (Pattern * string).

Lemma strip_line line :
  stripped line
    (if String.eqb line "." || startswith line ". " then slice_from 2 line else line).
Proof.
  repeat split.
  - by intros ->.
  - intros r ->. rewrite (StrFacts.startswith_app r ". ").
    by rewrite orb_true_r.
  - intros Hdot Hpre.
    destruct (String.eqb_spec line ".") as [|_]; [done|]. simpl.
    destruct (startswith line ". ") eqn:Hs; [|done].
    apply StrFacts.startswith_inv in Hs as [r ->]. by destruct (Hpre r).
Qed.

(** C3: [feature] writes, after the heading and the tag callout and before
    the empty line that ends the description, the description line by
    line, each followed by a newline; a line that is a lone dot is written
    empty, a line that starts with a dot and a space is written without
    these two characters, and any other line is written as it is. *)
Theorem description_strips_leading_dots (f : Feature) :
  ∃ outs,
    Forall2 stripped (feature_description f) outs ∧
    format_description (feature_description f) =
      concat_str (map (fun o => o +:+ nl) outs) ∧
    feature regexes f =
      "# " +:+ feature_name f +:+ nl +:+
      format_tags (feature_tags f) +:+
      concat_str (map (fun o => o +:+ nl) outs) +:+
      nl +:+
      match feature_background f with
      | Some steps => format_background regexes steps
      | None => ""
      end +:+
      "## Scenarios" +:+ nl +:+
      concat_str (map (format_scenario regexes) (feature_scenarios f)).
Proof.
  exists (_strip_dots (feature_description f)). split; [|split; reflexivity].
  unfold _strip_dots.
  induction (feature_description f) as [|line ls IH]; simpl.
  - constructor.
  - constructor; [apply strip_line | apply IH].
Qed.

Lemma sub_outside_free (before s : string) :
  quote_free before → sub_outside (before +:+ s) = before +:+ sub_outside s.
Proof.
  unfold quote_free. induction before as [|c b IH]; [done|].
  rewrite !StrFacts.app_cons. simpl.
  destruct (Ascii.eqb c dquote); [done|]. intros H. by rewrite IH.
Qed.

Lemma sub_inside_closed (body s group : string) :
  quote_free body →
  sub_inside (body +:+ String dquote s) group =
  String dquote ("`" +:+ (group +:+ body) +:+ "`" +:+ String dquote (sub_outside s)).
Proof.
  unfold quote_free. revert group. induction body as [|c b IH]; intros group.
  - intros _. by rewrite StrFacts.app_nil_l, StrFacts.app_nil_r.
  - rewrite StrFacts.app_cons. simpl.
    destruct (Ascii.eqb c dquote); [done|]. intros H.
    rewrite IH by done. by rewrite (StrFacts.app_assoc group (String c "") b).
Qed.

Lemma sub_inside_open (s group : string) :
  quote_free s → sub_inside s group = String dquote (group +:+ s).
Proof.
  unfold quote_free. revert group. induction s as [|c s IH]; intros group; simpl.
  - by rewrite StrFacts.app_nil_r.
  - destruct (Ascii.eqb c dquote); [done|]. intros H.
    rewrite IH by done. by rewrite (StrFacts.app_assoc group (String c "") s).
Qed.

Lemma sub_outside_rest (rest : string) :
  count dquote rest ≤ 1 → sub_outside rest = rest.
Proof.
  induction rest as [|c s IH]; [done|]. simpl.
  destruct (Ascii.eqb_spec c dquote) as [->|]; intros H.
  - by rewrite sub_inside_open by (unfold quote_free; lia).
  - by rewrite IH.
Qed.

Lemma re_sub_quoted_text segs rest :
  well_quoted segs rest →
  re_sub_quoted (quoted_text id segs rest) = quoted_text inline_code segs rest.
Proof.
  unfold re_sub_quoted. intros [Hsegs Hrest].
  induction Hsegs as [|[before body] segs [Hb Hq] _ IH]; simpl in *.
  - by apply sub_outside_rest.
  - rewrite sub_outside_free by done. cbn [sub_outside]. rewrite Ascii.eqb_refl.
    rewrite sub_inside_closed by done. rewrite IH. unfold inline_code.
    by rewrite StrFacts.app_nil_l, !StrFacts.app_assoc.
Qed.

Lemma count_quoted_text mark segs rest :
  (∀ body, quote_free body → quote_free (mark body)) →
  well_quoted segs rest →
  count dquote (quoted_text mark segs rest) = 2 * length segs + count dquote rest.
Proof.
  intros Hmark [Hsegs _].
  induction Hsegs as [|[before body] segs [Hb Hq] _ IH]; simpl in *; [done|].
  rewrite StrFacts.count_app. cbn [count]. rewrite StrFacts.count_app.
  cbn [count]. rewrite IH, Ascii.eqb_refl. unfold quote_free in *.
  rewrite Hb, (Hmark body Hq). lia.
Qed.

Lemma split_first_quote (s : string) :
  1 ≤ count dquote s →
  ∃ a b, s = a +:+ String dquote b ∧ quote_free a ∧
         count dquote s = S (count dquote b).
Proof.
  unfold quote_free. induction s as [|c s IH]; simpl; [lia|].
  destruct (Ascii.eqb_spec c dquote) as [->|Hc]; intros H.
  - by exists "", s.
  - destruct IH as (a & b & -> & Ha & Hb); [lia|].
    exists (String c a), b. split; [done|]. simpl.
    destruct (Ascii.eqb_spec c dquote); [done|]. split; [done|]. lia.
Qed.

(** Every step name is such a text, so that [format_step_quoted] speaks of
    every step. *)
Lemma every_name_quoted (name : string) :
  ∃ segs rest, well_quoted segs rest ∧ name = quoted_text id segs rest.
Proof.
  remember (String.length name) as n eqn:Hn. revert name Hn.
  induction n as [n IH] using lt_wf_ind. intros name ->.
  destruct (le_lt_dec (count dquote name) 1) as [Hle|Hgt].
  - exists [], name. split; [|done]. split; [constructor|done].
  - destruct (split_first_quote name) as (a & b & -> & Ha & Hab); [lia|].
    destruct (split_first_quote b) as (c & d & -> & Hc & Hcd); [lia|].
    destruct (IH (String.length d)) with (name := d)
      as (segs & rest & [Hsegs Hrest] & ->); [|done|].
    { rewrite !StrFacts.length_app. simpl. rewrite StrFacts.length_app.
      simpl. lia. }
    exists ((a, c) :: segs), rest. split; [|done].
    split; [|done]. by constructor.
Qed.

(** C4: a step name with the N quoted substrings [segs] is written after the
    bold keyword with every one of them still between its two quotes and its
    contents between backticks; the rewritten name holds the quotes of the
    N pairs and whatever unpaired quote followed them. *)
Theorem format_step_quoted (keyword : string) (text : option string)
    (segs : list (string * string)) (rest : string) :
  well_quoted segs rest →
  let name := quoted_text id segs rest in
  let rendered := quoted_text inline_code segs rest in
  re_sub_quoted name = rendered ∧
  count dquote rendered = 2 * length segs + count dquote rest ∧
  count dquote rendered `div` 2 = length segs ∧
  ∃ block,
    format_step regexes (mkStep keyword name text) =
    "**" +:+ keyword +:+ "** " +:+ rendered +:+ "  " +:+ nl +:+ block.
Proof.
  intros Hwq name rendered.
  assert (count dquote rendered = 2 * length segs + count dquote rest) as Hc.
  { apply count_quoted_text; [|done]. unfold quote_free, inline_code.
    intros body Hb. rewrite !StrFacts.count_app, Hb. done. }
  split; [by apply re_sub_quoted_text|]. split; [done|]. split.
  - rewrite Hc. destruct Hwq as [_ Hrest].
    assert (count dquote rest = 0 ∨ count dquote rest = 1) as [->| ->] by lia.
    + rewrite Nat.add_0_r, Nat.mul_comm. apply Nat.div_mul. done.
    + rewrite Nat.mul_comm, Nat.div_add_l by done. simpl. lia.
  - eexists. subst name rendered. unfold format_step.
    cbn [step_name step_keyword step_text].
    rewrite (re_sub_quoted_text segs rest Hwq). reflexivity.
Qed.

(** C1: for an examples table without a name the line written in place of
    the heading is empty; the heading text is written only with a name. *)
Theorem examples_without_name_no_heading (table : Table) :
  startswith (format_examples (mkExamples "" table)) "#### Examples" = false ∧
  startswith (format_examples (mkExamples "" table)) nl = true.
Proof. done. Qed.

Lemma examples_with_name_heading (name : string) (table : Table) :
  truthy name = true →
  startswith (format_examples (mkExamples name table))
             ("#### Examples: " +:+ name +:+ nl) = true.
Proof.
  intros H. unfold format_examples. cbn [examples_name]. rewrite H.
  match goal with
  | |- startswith (?a +:+ nl +:+ ?r) ?p = true =>
      replace (a +:+ nl +:+ r) with (p +:+ r)
        by (by rewrite !StrFacts.app_assoc)
  end.
  apply StrFacts.startswith_app.
Qed.

(** With a name the heading is written, and after the heading line, with
    or without a name, come the header row, the separator row, one row per
    example row with every cell between backticks, and an empty line. *)
Lemma format_examples_table (name : string) (table : Table) :
  format_examples (mkExamples name table) =
  (if truthy name then "#### Examples: " +:+ name else "") +:+ nl +:+
  "|" +:+ join "|" (headings table) +:+ "|" +:+ nl +:+
  repeat_str "|--" (length (headings table)) +:+ "|" +:+ nl +:+
  concat_str (map (fun row => "|" +:+ join "|" (map inline_code row) +:+ "|" +:+ nl)
                  (rows table)) +:+
  nl.
Proof.
  unfold format_examples. cbn [examples_name examples_table].
  by destruct (truthy name).
Qed.

End FormatterFacts.

Lemma format_step_quoted_witness :
  well_quoted [("a ", "x")] " b" ∧
  re_sub_quoted ("a " +:+ String dquote ("x" +:+ String dquote " b")) =
  "a " +:+ String dquote ("`x`" +:+ String dquote " b").
Proof.
  assert (well_quoted [("a ", "x")] " b") as H.
  { split; [|vm_compute; lia]. repeat constructor. }
  split; [exact H|].
  exact (proj1 (format_step_quoted [] "Given" None [("a ", "x")] " b" H)).
Defined.


(** ** The navigation tree *)

Lemma merge_element_group name sub d nav_entry :
  merge_element (Group ((name, sub) :: d)) nav_entry =
  match find_group (display_name name) nav_entry with
  | Some sub_nav_entry =>
      sub' ← merge sub_nav_entry sub; Ok (set_group (display_name name) sub' nav_entry)
  | None =>
      sub' ← merge [] sub; Ok (nav_entry ++ [Group [(display_name name, sub')]])
  end.
Proof. reflexivity. Qed.

Lemma find_element_group k sub d :
  find_element (Group ((k, sub) :: d)) = find sub.
Proof. reflexivity. Qed.

Lemma process_element_group k sub d :
  process_element (Group ((k, sub) :: d)) =
  sub' ← process sub; Ok (Group ((k, sub') :: d)).
Proof. reflexivity. Qed.

(** Induction on a navigation element through the values of its dict. *)
Lemma NavElement_ind (P : NavElement → Prop) :
  (∀ s, P (Leaf s)) →
  (∀ d, Forall (fun kv => Forall P (snd kv)) d → P (Group d)) →
  ∀ element, P element.
Proof.
  intros HL HG. fix IH 1. intros [s|d]; [apply HL|]. apply HG.
  induction d as [|[k v] d IHd]; constructor; [|exact IHd]. simpl.
  induction v as [|e v IHv]; constructor; [apply IH | exact IHv].
Qed.

Lemma bind_ok {A B} (m : result A) (f : A → result B) (b : B) :
  m ≫= f = Ok b → ∃ a, m = Ok a ∧ f a = Ok b.
Proof. destruct m as [a|e]; [|done]. intros H. by exists a. Qed.

Section NavFacts.

Implicit Types (nav : NavTree) (d : NavDict) (name : string).

Lemma leaf_in_app s nav nav' :
  leaf_in s (nav ++ nav') = leaf_in s nav || leaf_in s nav'.
Proof. unfold leaf_in. apply existsb_app. Qed.

Lemma find_group_app name nav nav' :
  find_group name (nav ++ nav') =
  match find_group name nav with
  | Some sub => Some sub
  | None => find_group name nav'
  end.
Proof.
  induction nav as [|[s|d] nav IH]; simpl; [done..|].
  by destruct (dict_get name d).
Qed.

Lemma dict_get_set_eq name v d x :
  dict_get name d = Some x → dict_get name (dict_set name v d) = Some v.
Proof.
  unfold dict_get. induction d as [|[k y] d IH]; simpl; [done|].
  destruct (String.eqb k name) eqn:E; simpl; rewrite E; [done|]. apply IH.
Qed.

Lemma dict_get_set_ne name name' v d :
  name ≠ name' → dict_get name (dict_set name' v d) = dict_get name d.
Proof.
  intros Hne. unfold dict_get. induction d as [|[k y] d IH]; simpl; [done|].
  destruct (String.eqb_spec k name') as [->|]; simpl.
  - destruct (String.eqb_spec name' name); [by subst|done].
  - destruct (String.eqb k name); [done|]. apply IH.
Qed.

Lemma dict_set_same name v d :
  dict_get name d = Some v → dict_set name v d = d.
Proof.
  unfold dict_get. induction d as [|[k y] d IH]; simpl; [done|].
  destruct (String.eqb k name); simpl.
  - by intros [= ->].
  - intros H. by rewrite IH.
Qed.

Lemma map_fst_dict_set name v d : map fst (dict_set name v d) = map fst d.
Proof.
  induction d as [|[k y] d IH]; simpl; [done|].
  destruct (String.eqb k name); simpl; by rewrite ?IH.
Qed.

Lemma find_set_group_eq name v nav x :
  find_group name nav = Some x → find_group name (set_group name v nav) = Some v.
Proof.
  induction nav as [|[s|d] nav IH]; simpl; [done..|].
  destruct (dict_get name d) eqn:E; simpl.
  - intros _. by rewrite (dict_get_set_eq _ _ _ _ E).
  - rewrite E. apply IH.
Qed.

Lemma find_set_group_ne name name' v nav :
  name ≠ name' → find_group name (set_group name' v nav) = find_group name nav.
Proof.
  intros Hne. induction nav as [|[s|d] nav IH]; simpl; [done..|].
  destruct (dict_get name' d) eqn:E; simpl.
  - by rewrite dict_get_set_ne.
  - by rewrite IH.
Qed.

Lemma set_group_same name v nav :
  find_group name nav = Some v → set_group name v nav = nav.
Proof.
  induction nav as [|[s|d] nav IH]; simpl; [done| |].
  - intros H. by rewrite IH.
  - destruct (dict_get name d) eqn:E.
    + intros [= ->]. by rewrite dict_set_same.
    + intros H. by rewrite IH.
Qed.

Lemma leaf_in_set_group s name v nav :
  leaf_in s (set_group name v nav) = leaf_in s nav.
Proof.
  induction nav as [|[s'|d] nav IH]; simpl; [done| |].
  - by rewrite IH.
  - by destruct (dict_get name d).
Qed.

End NavFacts.

(** ** Merging the feature tree into the navigation *)

Section MergeFacts.

Implicit Types (nav : NavTree) (element : NavElement).

Lemma absorbs_app nav nav' element :
  absorbs nav element → absorbs (nav ++ nav') element.
Proof.
  destruct 1 as [nav s H | nav name sub d sub_nav H Hsub].
  - constructor. by rewrite leaf_in_app, H.
  - econstructor; [|exact Hsub]. by rewrite find_group_app, H.
Qed.

(** What is absorbed is merged without a change. *)
Lemma merge_element_absorbed element :
  ∀ nav, absorbs nav element → merge_element element nav = Ok nav.
Proof.
  induction element as [s|d IH] using NavElement_ind; intros nav Habs.
  - inversion Habs as [? ? H|]; subst. simpl. by rewrite H.
  - inversion Habs as [|? name sub d' sub_nav Hfind Hsub]; subst.
    rewrite merge_element_group, Hfind.
    apply Forall_cons in IH as [IH _]. simpl in IH.
    assert (merge sub_nav sub = Ok sub_nav) as ->.
    { clear Hfind Habs. induction sub as [|e sub IHsub]; [done|].
      apply Forall_cons in IH as [IHe IH].
      apply Forall_cons in Hsub as [He Hsub]. simpl.
      rewrite (IHe _ He). simpl. by apply IHsub. }
    simpl. by rewrite set_group_same.
Qed.

Lemma merge_absorbed nav feature_entry :
  Forall (absorbs nav) feature_entry → merge nav feature_entry = Ok nav.
Proof.
  induction 1 as [|e l He _ IH]; [done|]. simpl.
  by rewrite (merge_element_absorbed _ _ He).
Qed.

Lemma merge_keeps_absorbed_list feature_entry :
  Forall keeps_absorbed feature_entry →
  ∀ nav nav', merge nav feature_entry = Ok nav' →
    ∀ e, absorbs nav e → absorbs nav' e.
Proof.
  induction 1 as [|e2 l He2 _ IH]; intros nav nav' Hm e Habs; simpl in Hm.
  - by inversion Hm; subst.
  - apply bind_ok in Hm as (nav1 & H1 & Hm).
    eapply IH; [exact Hm|]. eapply He2; [exact H1 | exact Habs].
Qed.

Lemma absorbs_set_group name nav sub_nav sub_nav' e :
  find_group name nav = Some sub_nav →
  (∀ e', absorbs sub_nav e' → absorbs sub_nav' e') →
  absorbs nav e → absorbs (set_group name sub_nav' nav) e.
Proof.
  intros Hfind Hsub.
  destruct 1 as [nav s H | nav n sub d x Hx Hall].
  - constructor. by rewrite leaf_in_set_group.
  - destruct (decide (display_name n = name)) as [Heq|Hne].
    + rewrite Heq in Hx. rewrite Hfind in Hx. injection Hx as <-.
      econstructor.
      * rewrite Heq. by eapply find_set_group_eq.
      * eapply Forall_impl; [exact Hall|]. apply Hsub.
    + econstructor; [|exact Hall]. by rewrite find_set_group_ne.
Qed.

Lemma merge_element_keeps_absorbed element : keeps_absorbed element.
Proof.
  induction element as [s|d IH] using NavElement_ind; intros nav nav' Hm e Habs.
  - simpl in Hm. injection Hm as <-.
    destruct (leaf_in s nav); [done|]. by apply absorbs_app.
  - destruct d as [|[name sub] d]; [done|].
    apply Forall_cons in IH as [IH _]. simpl in IH.
    rewrite merge_element_group in Hm.
    destruct (find_group (display_name name) nav) as [sub_nav|] eqn:Hfind.
    + apply bind_ok in Hm as (sub' & Hsub & [= <-]).
      eapply absorbs_set_group; [exact Hfind| |exact Habs].
      by apply (merge_keeps_absorbed_list sub IH sub_nav).
    + apply bind_ok in Hm as (sub' & Hsub & [= <-]). by apply absorbs_app.
Qed.

Lemma merge_keeps_absorbed nav nav' feature_entry e :
  merge nav feature_entry = Ok nav' → absorbs nav e → absorbs nav' e.
Proof.
  intros Hm Habs. eapply merge_keeps_absorbed_list; [|exact Hm|exact Habs].
  apply Forall_forall. intros ? _. apply merge_element_keeps_absorbed.
Qed.

(** After the merge of an element the entry absorbs it. *)
Lemma merge_element_absorbs element :
  ∀ nav nav', merge_element element nav = Ok nav' → absorbs nav' element.
Proof.
  induction element as [s|d IH] using NavElement_ind; intros nav nav' Hm.
  - simpl in Hm. injection Hm as <-. constructor.
    destruct (leaf_in s nav) eqn:E; [done|].
    rewrite leaf_in_app. simpl. by rewrite String.eqb_refl, orb_true_r.
  - destruct d as [|[name sub] d]; [done|].
    apply Forall_cons in IH as [IH _]. simpl in IH.
    rewrite merge_element_group in Hm.
    assert (∀ sub_nav sub', merge sub_nav sub = Ok sub' →
                            Forall (absorbs sub') sub) as Hlist.
    { clear Hm. induction sub as [|e sub IHsub]; intros sub_nav sub' Hm.
      - constructor.
      - apply Forall_cons in IH as [IHe IH]. simpl in Hm.
        apply bind_ok in Hm as (nav1 & H1 & Hm). constructor.
        + eapply merge_keeps_absorbed; [exact Hm|]. by eapply IHe.
        + by eapply IHsub. }
    destruct (find_group (display_name name) nav) as [sub_nav|] eqn:Hfind.
    + apply bind_ok in Hm as (sub' & Hsub & [= <-]).
      econstructor; [by eapply find_set_group_eq | by eapply Hlist].
    + apply bind_ok in Hm as (sub' & Hsub & [= <-]).
      econstructor; [|by eapply Hlist].
      rewrite find_group_app, Hfind. simpl. unfold dict_get. simpl.
      by rewrite String.eqb_refl.
Qed.

Lemma merge_absorbs nav nav' feature_entry :
  merge nav feature_entry = Ok nav' → Forall (absorbs nav') feature_entry.
Proof.
  revert nav. induction feature_entry as [|e l IH]; intros nav Hm; [constructor|].
  simpl in Hm. apply bind_ok in Hm as (nav1 & H1 & Hm). constructor.
  - eapply merge_keeps_absorbed; [exact Hm|]. by eapply merge_element_absorbs.
  - by eapply IH.
Qed.

(** A source tree of the data model is merged without a raise. *)
Lemma merge_element_total element :
  single_key element → ∀ nav, ∃ nav', merge_element element nav = Ok nav'.
Proof.
  induction element as [s|d IH] using NavElement_ind; intros Hs nav.
  - by eexists.
  - inversion Hs as [|k v Hv]; subst.
    apply Forall_cons in IH as [IH _]. simpl in IH.
    rewrite merge_element_group.
    assert (∀ sub_nav, ∃ sub', merge sub_nav v = Ok sub') as Hsub.
    { clear Hs. induction IH as [|e v He _ IHv]; intros sub_nav.
      - by eexists.
      - apply Forall_cons in Hv as [Hse Hv].
        destruct (He Hse sub_nav) as [nav1 H1]. simpl. rewrite H1. simpl.
        by apply IHv. }
    destruct (find_group (display_name k) nav) as [sub_nav|].
    + destruct (Hsub sub_nav) as [sub' ->]. by eexists.
    + destruct (Hsub []) as [sub' ->]. by eexists.
Qed.

Lemma merge_total nav feature_entry :
  Forall single_key feature_entry → ∃ nav', merge nav feature_entry = Ok nav'.
Proof.
  intros H. revert nav. induction H as [|e l He _ IH]; intros nav.
  - by eexists.
  - destruct (merge_element_total e He nav) as [nav1 H1]. simpl.
    rewrite H1. simpl. apply IH.
Qed.

Lemma single_key_find name nav v :
  Forall single_key nav → find_group name nav = Some v → Forall single_key v.
Proof.
  induction 1 as [|e nav He _ IH]; [done|]. simpl.
  destruct He as [s|k x Hx]; [exact IH|].
  unfold dict_get. simpl. destruct (String.eqb k name); simpl; [|exact IH].
  by intros [= <-].
Qed.

Lemma single_key_set name nav v :
  Forall single_key nav → Forall single_key v →
  Forall single_key (set_group name v nav).
Proof.
  intros Hnav Hv. induction Hnav as [|e nav He Hnav IH]; [constructor|]. simpl.
  destruct He as [s|k x Hx]; [by constructor; [constructor|]|].
  unfold dict_get. simpl. destruct (String.eqb k name) eqn:E; simpl.
  - constructor; [by constructor|done].
  - constructor; [by constructor|done].
Qed.

Lemma add_feature_single parts leaf tree :
  Forall single_key tree → Forall single_key (add_feature parts leaf tree).
Proof.
  revert tree. induction parts as [|part parts IH]; intros tree Ht; simpl.
  - apply Forall_app. split; [done|]. repeat constructor.
  - destruct (find_group part tree) as [sub|] eqn:E.
    + apply single_key_set; [done|]. apply IH. by eapply single_key_find.
    + apply Forall_app. split; [done|]. constructor; [|constructor].
      constructor. apply IH. constructor.
Qed.

(** The tree built from the files on disk is of the data model, so that
    merging it never raises. *)
Lemma build_feature_tree_single feature_paths :
  Forall single_key (_build_feature_tree feature_paths).
Proof.
  unfold _build_feature_tree.
  assert (Forall single_key []) as H by constructor. revert H.
  generalize ([] : NavTree).
  induction feature_paths as [|p l IH]; intros tree Ht; simpl; [done|].
  apply IH. by apply add_feature_single.
Qed.

Lemma merge_feature_tree_total nav feature_paths :
  ∃ nav', _merge_features_into_nav nav (_build_feature_tree feature_paths) = Ok nav'.
Proof. apply merge_total, build_feature_tree_single. Qed.

(** C2: merging the same source tree a second time changes nothing, and
    so adds no leaf and no group; where the first merge raises, so does
    the sequence. *)
Theorem merge_idempotent (T1 T2 : NavTree) :
  (M ← _merge_features_into_nav T1 T2; _merge_features_into_nav M T2) =
  _merge_features_into_nav T1 T2.
Proof.
  unfold _merge_features_into_nav.
  destruct (merge T1 T2) as [M|e] eqn:Hm; [|done]. simpl.
  apply merge_absorbed. by eapply merge_absorbs.
Qed.

End MergeFacts.

(** ** One mapping entry per group name *)

Section UniqueGroups.

Implicit Types (nav : NavTree) (d : NavDict) (name : string).

Lemma group_names_app nav nav' :
  group_names (nav ++ nav') = group_names nav ++ group_names nav'.
Proof. unfold group_names. apply flat_map_app. Qed.

Lemma group_names_set_group name v nav :
  group_names (set_group name v nav) = group_names nav.
Proof.
  induction nav as [|[s|d] nav IH]; simpl; [done..|].
  destruct (dict_get name d); simpl; [|by rewrite IH].
  by rewrite map_fst_dict_set.
Qed.

Lemma dict_get_Some name d v : dict_get name d = Some v → (name, v) ∈ d.
Proof.
  unfold dict_get. induction d as [|[k x] d IH]; simpl; [done|].
  destruct (String.eqb_spec k name) as [->|]; simpl.
  - intros [= ->]. left.
  - intros H. right. by apply IH.
Qed.

Lemma dict_get_None name d : dict_get name d = None → name ∉ map fst d.
Proof.
  unfold dict_get. induction d as [|[k x] d IH]; simpl.
  - intros _. apply not_elem_of_nil.
  - destruct (String.eqb_spec k name) as [->|]; simpl; [done|].
    intros H. apply not_elem_of_cons. split; [done|]. by apply IH.
Qed.

Lemma find_group_Some name nav v :
  find_group name nav = Some v → ∃ d, Group d ∈ nav ∧ (name, v) ∈ d.
Proof.
  induction nav as [|[s|d] nav IH]; simpl; [done| |].
  - intros (d & ? & ?)%IH. exists d. split; [by right|done].
  - destruct (dict_get name d) eqn:E.
    + intros [= ->]. exists d. split; [left|by apply dict_get_Some].
    + intros (d' & ? & ?)%IH. exists d'. split; [by right|done].
Qed.

Lemma find_group_None name nav :
  find_group name nav = None → name ∉ group_names nav.
Proof.
  induction nav as [|[s|d] nav IH]; simpl.
  - intros _. apply not_elem_of_nil.
  - done.
  - destruct (dict_get name d) eqn:E; [done|]. intros H.
    rewrite elem_of_app. intros [?|?].
    + by apply (dict_get_None _ _ E).
    + by apply IH.
Qed.

Lemma elem_of_dict_set name v d k x :
  (k, x) ∈ dict_set name v d → (k, x) ∈ d ∨ x = v.
Proof.
  induction d as [|[k' y] d IH]; simpl; [by left|].
  destruct (String.eqb k' name).
  - intros [[= -> ->]|?]%elem_of_cons; [by right|]. left. by right.
  - intros [[= -> ->]|H]%elem_of_cons; [left; left|].
    destruct (IH H); [left; by right|by right].
Qed.

Lemma elem_of_set_group name v nav d k x :
  Group d ∈ set_group name v nav → (k, x) ∈ d →
  (∃ d', Group d' ∈ nav ∧ (k, x) ∈ d') ∨ x = v.
Proof.
  induction nav as [|[s|d0] nav IH]; simpl.
  - by intros ?%elem_of_nil.
  - intros [?|H]%elem_of_cons Hk; [done|].
    destruct (IH H Hk) as [(d' & ? & ?)|]; [|by right].
    left. exists d'. split; [by right|done].
  - destruct (dict_get name d0).
    + intros [[= ->]|H]%elem_of_cons Hk.
      * destruct (elem_of_dict_set _ _ _ _ _ Hk); [|by right].
        left. exists d0. split; [left|done].
      * left. exists d. split; [by right|done].
    + intros [[= ->]|H]%elem_of_cons Hk.
      * left. exists d0. split; [left|done].
      * destruct (IH H Hk) as [(d' & ? & ?)|]; [|by right].
        left. exists d'. split; [by right|done].
Qed.

Lemma unique_groups_nil : unique_groups [].
Proof.
  constructor; [constructor|]. by intros ? ? ? ?%elem_of_nil.
Qed.

Lemma unique_groups_find name nav v :
  unique_groups nav → find_group name nav = Some v → unique_groups v.
Proof.
  intros [? _ Hsub] (d & ? & ?)%find_group_Some. by eapply Hsub.
Qed.

Lemma unique_groups_set_group name v nav :
  unique_groups nav → unique_groups v → unique_groups (set_group name v nav).
Proof.
  intros [? Hnd Hsub] Hv. constructor.
  - by rewrite group_names_set_group.
  - intros d k x Hd Hk.
    destruct (elem_of_set_group _ _ _ _ _ _ Hd Hk) as [(d' & ? & ?)| ->];
      [by eapply Hsub|done].
Qed.

Lemma unique_groups_app_leaf nav s :
  unique_groups nav → unique_groups (nav ++ [Leaf s]).
Proof.
  intros [? Hnd Hsub]. constructor.
  - rewrite group_names_app. simpl. by rewrite app_nil_r.
  - intros d k x [?|H]%elem_of_app ?; [by eapply Hsub|].
    apply list_elem_of_singleton in H. done.
Qed.

Lemma unique_groups_app_group nav name v :
  unique_groups nav → unique_groups v → find_group name nav = None →
  unique_groups (nav ++ [Group [(name, v)]]).
Proof.
  intros [? Hnd Hsub] Hv Hnone. constructor.
  - rewrite group_names_app. simpl. apply NoDup_app. split; [done|]. split.
    + intros x Hx [->|?%elem_of_nil]%elem_of_cons; [|done].
      by apply (find_group_None _ _ Hnone).
    + apply NoDup_singleton.
  - intros d k x [?|H]%elem_of_app Hk; [by eapply Hsub|].
    apply list_elem_of_singleton in H. injection H as ->.
    apply list_elem_of_singleton in Hk. by injection Hk as -> ->.
Qed.

Lemma merge_keeps_unique_list feature_entry :
  Forall keeps_unique feature_entry →
  ∀ nav nav', merge nav feature_entry = Ok nav' →
    unique_groups nav → unique_groups nav'.
Proof.
  induction 1 as [|e l He _ IH]; intros nav nav' Hm Hu; simpl in Hm.
  - by injection Hm as <-.
  - apply bind_ok in Hm as (nav1 & H1 & Hm).
    eapply IH; [exact Hm|]. by eapply He.
Qed.

Lemma merge_element_keeps_unique element : keeps_unique element.
Proof.
  induction element as [s|d IH] using NavElement_ind; intros nav nav' Hm Hu.
  - simpl in Hm. injection Hm as <-.
    destruct (leaf_in s nav); [done|]. by apply unique_groups_app_leaf.
  - destruct d as [|[name sub] d]; [done|].
    apply Forall_cons in IH as [IH _]. simpl in IH.
    rewrite merge_element_group in Hm.
    destruct (find_group (display_name name) nav) as [sub_nav|] eqn:Hfind.
    + apply bind_ok in Hm as (sub' & Hsub & [= <-]).
      apply unique_groups_set_group; [done|].
      eapply merge_keeps_unique_list; [exact IH|exact Hsub|].
      by eapply unique_groups_find.
    + apply bind_ok in Hm as (sub' & Hsub & [= <-]).
      apply unique_groups_app_group; [done| |done].
      eapply merge_keeps_unique_list; [exact IH|exact Hsub|].
      apply unique_groups_nil.
Qed.

Lemma merge_keeps_unique nav nav' feature_entry :
  merge nav feature_entry = Ok nav' → unique_groups nav → unique_groups nav'.
Proof.
  apply merge_keeps_unique_list.
  apply Forall_forall. intros ? _. apply merge_element_keeps_unique.
Qed.

Lemma shape_set_group name v nav :
  map entry_shape (set_group name v nav) = map entry_shape nav.
Proof.
  induction nav as [|[s|d] nav IH]; simpl; [done| |].
  - by rewrite IH.
  - destruct (dict_get name d); simpl; [|by rewrite IH].
    by rewrite map_fst_dict_set.
Qed.

Lemma merge_element_shape element nav nav' :
  merge_element element nav = Ok nav' →
  map entry_shape nav `prefix_of` map entry_shape nav'.
Proof.
  destruct element as [s|[|[name sub] d]]; [| done |].
  - simpl. intros [= <-]. destruct (leaf_in s nav); [done|].
    rewrite map_app. by apply prefix_app_r.
  - rewrite merge_element_group.
    destruct (find_group (display_name name) nav) as [sub_nav|].
    + intros (sub' & _ & [= <-])%bind_ok. by rewrite shape_set_group.
    + intros (sub' & _ & [= <-])%bind_ok.
      rewrite map_app. by apply prefix_app_r.
Qed.

Lemma merge_shape nav nav' feature_entry :
  merge nav feature_entry = Ok nav' →
  map entry_shape nav `prefix_of` map entry_shape nav'.
Proof.
  revert nav. induction feature_entry as [|e l IH]; intros nav Hm; simpl in Hm.
  - by injection Hm as <-.
  - apply bind_ok in Hm as (nav1 & H1 & Hm).
    etrans; [by eapply merge_element_shape|by apply IH].
Qed.

End UniqueGroups.

(** C7, as the code has it: a destination with at most one mapping entry
    per group name at every level keeps that through the merge, the entries
    it had keep their places and their keys, and what is new comes after
    them; the same holds for the tree and the entry that
    [_ensure_features_entry] gives. *)
Theorem merge_preserves_unique_groups (T1 T2 M : NavTree) (heading : string) :
  unique_groups T1 →
  _merge_features_into_nav T1 T2 = Ok M →
  (unique_groups M ∧ map entry_shape T1 `prefix_of` map entry_shape M) ∧
  (unique_groups (_ensure_features_entry T1 heading).1 ∧
   unique_groups (_ensure_features_entry T1 heading).2 ∧
   map entry_shape T1 `prefix_of`
     map entry_shape (_ensure_features_entry T1 heading).1).
Proof.
  unfold _merge_features_into_nav, _ensure_features_entry. intros Hu Hm.
  split; [split|].
  - by eapply merge_keeps_unique.
  - by eapply merge_shape.
  - destruct (find_group heading T1) as [entry|] eqn:Hfind; simpl.
    + split; [done|]. split; [by eapply unique_groups_find|done].
    + split; [|split].
      * apply unique_groups_app_group; [done|apply unique_groups_nil|done].
      * apply unique_groups_nil.
      * rewrite map_app. by apply prefix_app_r.
Qed.

Lemma merge_preserves_unique_groups_witness :
  unique_groups [Leaf "features/a.md"; Group [("Group", [])]] ∧
  _merge_features_into_nav
    [Leaf "features/a.md"; Group [("Group", [])]]
    [Group [("group", [Leaf "features/group/b.feature"])]] =
  Ok [Leaf "features/a.md";
      Group [("Group", [Leaf "features/group/b.feature"])]] ∧
  unique_groups [Leaf "features/a.md";
                 Group [("Group", [Leaf "features/group/b.feature"])]].
Proof.
  set (T1 := [Leaf "features/a.md"; Group [("Group", [])]]).
  set (T2 := [Group [("group", [Leaf "features/group/b.feature"])]]).
  set (M := [Leaf "features/a.md";
             Group [("Group", [Leaf "features/group/b.feature"])]]).
  assert (unique_groups T1) as H1.
  { constructor.
    - simpl. apply NoDup_singleton.
    - intros d k v Hd Hk. subst T1.
      apply elem_of_cons in Hd as [Hd|Hd]; [done|].
      apply list_elem_of_singleton in Hd. injection Hd as ->.
      apply list_elem_of_singleton in Hk. injection Hk as -> ->.
      apply unique_groups_nil. }
  assert (_merge_features_into_nav T1 T2 = Ok M) as H2 by reflexivity.
  split; [exact H1|]. split; [exact H2|].
  exact (proj1 (proj1 (merge_preserves_unique_groups T1 T2 M "Features" H1 H2))).
Defined.

(** C7, as stated, fails: two mapping entries of one name that the
    destination already has are both still there after the merge. *)
Lemma merge_keeps_duplicate_groups :
  _merge_features_into_nav
    [Group [("A", [])]; Group [("A", [])]]
    [Group [("a", [Leaf "features/a/x.feature"])]] =
  Ok [Group [("A", [Leaf "features/a/x.feature"])]; Group [("A", [])]] ∧
  ¬ unique_groups
      [Group [("A", [Leaf "features/a/x.feature"])]; Group [("A", [])]].
Proof.
  split; [reflexivity|].
  inversion 1 as [? Hnd _]. simpl in Hnd.
  apply NoDup_cons in Hnd as [Hin _]. apply Hin. left.
Qed.

(** ** Dicts with several keys *)

Section FirstKey.

Lemma find_app (nav nav' : NavTree) :
  find (nav ++ nav') = (a ← find nav; b ← find nav'; Ok (a ++ b)).
Proof.
  induction nav as [|e nav IH]; simpl.
  - by destruct (find nav').
  - destruct (find_element e) as [a|]; [|done]. simpl. rewrite IH.
    destruct (find nav) as [b|]; [|done]. simpl.
    destruct (find nav') as [c|]; [|done]. simpl. by rewrite app_assoc.
Qed.

Lemma find_element_prune element :
  find_element element = find_element (prune_element element).
Proof.
  induction element as [s|d IH] using NavElement_ind; [done|].
  destruct d as [|[k v] d]; [done|].
  apply Forall_cons in IH as [IH _]. simpl in IH.
  change (prune_element (Group ((k, v) :: d))) with (Group [(k, prune v)]).
  rewrite !find_element_group. unfold prune.
  induction IH as [|e v He _ IHv]; [done|]. simpl.
  by rewrite <- He, IHv.
Qed.

Lemma find_prune (nav : NavTree) : find nav = find (prune nav).
Proof.
  induction nav as [|e nav IH]; [done|]. simpl.
  by rewrite <- find_element_prune, IH.
Qed.

Lemma process_element_later element element' :
  process_element element = Ok element' →
  later_items_element element' = later_items_element element.
Proof.
  revert element'.
  induction element as [s|d IH] using NavElement_ind; intros element' Hp.
  - simpl in Hp. destruct (endswith s ".feature").
    + apply bind_ok in Hp as (p & _ & [= <-]). done.
    + by injection Hp as <-.
  - destruct d as [|[k v] d]; [done|].
    apply Forall_cons in IH as [IH _]. simpl in IH.
    rewrite process_element_group in Hp.
    apply bind_ok in Hp as (v' & Hv & [= <-]). simpl. f_equal.
    revert v' Hv. induction IH as [|e v He _ IHv]; intros v' Hv; simpl in Hv.
    + by injection Hv as <-.
    + apply bind_ok in Hv as (e' & He' & Hv).
      apply bind_ok in Hv as (r' & Hr' & [= <-]). simpl.
      by rewrite (He _ He'), (IHv _ Hr').
Qed.

Lemma process_later (nav nav' : NavTree) :
  process nav = Ok nav' → later_items nav' = later_items nav.
Proof.
  revert nav'. induction nav as [|e nav IH]; intros nav' Hp; simpl in Hp.
  - by injection Hp as <-.
  - apply bind_ok in Hp as (e' & He' & Hp).
    apply bind_ok in Hp as (r' & Hr' & [= <-]). unfold later_items. simpl.
    rewrite (process_element_later _ _ He'). f_equal. by apply IH.
Qed.

(** C9: the search reports what it reports on the tree cut down to the
    first key of every dict, and the rewrite leaves every item under a
    second or later key as it was; for a dict at the top of the tree the
    search and the rewrite are those of the value of its first key. *)
Theorem later_keys_not_traversed (nav_tree : NavTree) :
  _get_feature_paths_in_nav nav_tree = _get_feature_paths_in_nav (prune nav_tree) ∧
  (∀ nav_tree', _rename_features_in_nav nav_tree = Ok nav_tree' →
                later_items nav_tree' = later_items nav_tree) ∧
  (∀ k v later rest,
     nav_tree = Group ((k, v) :: later) :: rest →
     _get_feature_paths_in_nav nav_tree =
       (a ← find v; b ← find rest; Ok (a ++ b)) ∧
     _rename_features_in_nav nav_tree =
       (v' ← process v; rest' ← process rest;
        Ok (Group ((k, v') :: later) :: rest'))).
Proof.
  unfold _get_feature_paths_in_nav, _rename_features_in_nav.
  split; [apply find_prune|]. split; [intros ?; apply process_later|].
  intros k v later rest ->. split; [done|]. simpl.
  change ((fix process (nav_entry : NavTree) : result NavTree :=
            match nav_entry with
            | [] => Ok []
            | element :: rest => element' ← process_element element;
                                 rest' ← process rest; Ok (element' :: rest')
            end) v) with (process v).
  destruct (process v) as [v'|]; [|done]. done.
Qed.

End FirstKey.

Lemma later_keys_not_traversed_witness :
  _get_feature_paths_in_nav
    [Group [("A", [Leaf "features/a.feature"]);
            ("B", [Leaf "features/b.feature"])]] =
    Ok [Path.of_str "features/a.feature"] ∧
  _rename_features_in_nav
    [Group [("A", [Leaf "features/a.feature"]);
            ("B", [Leaf "features/b.feature"])]] =
    Ok [Group [("A", [Leaf "features/a.md"]);
               ("B", [Leaf "features/b.feature"])]].
Proof.
  set (nav := [Group [("A", [Leaf "features/a.feature"]);
                      ("B", [Leaf "features/b.feature"])]]).
  destruct (later_keys_not_traversed nav) as (_ & _ & H).
  destruct (H "A" [Leaf "features/a.feature"]
              [("B", [Leaf "features/b.feature"])] [] eq_refl) as [Hf Hr].
  split; [rewrite Hf | rewrite Hr]; reflexivity.
Defined.

(** ** Paths *)

Module PathFacts.
Import Path StrFacts.

Lemma keep_part_true x : keep_part x = true ↔ x ≠ "" ∧ x ≠ ".".
Proof.
  unfold keep_part. rewrite andb_true_iff, !negb_true_iff, !eqb_neq. done.
Qed.

Lemma splitroot_cases s :
  splitroot s = ("", s) ∧ slice_to 1 s ≠ "/" ∨
  (∃ r, s = String "/" r ∧ splitroot s = ("/", r)) ∨
  (∃ r, s = String "/" (String "/" r) ∧ splitroot s = ("//", r) ∧
        slice_to 1 r ≠ "/").
Proof.
  unfold splitroot.
  destruct s as [|a s]; [by left|].
  cbn [slice_to slice_from]. cbn [String.eqb].
  destruct (Ascii.eqb_spec a "/") as [->|Ha]; cbn [andb negb];
    [|left; split; [done|]; by intros [= ?]].
  right. destruct s as [|b s]; [left; by eexists|].
  cbn [slice_to slice_from String.eqb].
  destruct (Ascii.eqb_spec b "/") as [->|Hb]; cbn [andb negb orb];
    [|left; by eexists].
  destruct s as [|c s]; [right; by eexists|].
  cbn [slice_to slice_from String.eqb].
  destruct (Ascii.eqb_spec c "/") as [->|Hc]; cbn [andb negb orb].
  - left. by eexists.
  - right. eexists. split; [done|]. split; [done|]. by intros [= ?].
Qed.

Lemma of_str_valid s : valid_path (of_str s).
Proof.
  unfold of_str.
  assert (∀ rel, Forall valid_part (List.filter keep_part (split "/" rel))) as H.
  { intros rel. apply Forall_forall. intros x Hx.
    apply list_elem_of_In, filter_In in Hx as [Hx Hk].
    apply keep_part_true in Hk as [? ?]. split; [done|]. split; [done|].
    pose proof (split_no_sep "/" rel) as Hall.
    rewrite Forall_forall in Hall. apply Hall. by apply list_elem_of_In. }
  destruct (splitroot_cases s) as [[-> _]|[(r & _ & ->)|(r & _ & -> & _)]];
    split; simpl; auto.
Qed.

Lemma filter_keep_valid l : Forall valid_part l → List.filter keep_part l = l.
Proof.
  induction 1 as [|x l (? & ? & ?) _ IH]; [done|]. simpl.
  rewrite (proj2 (keep_part_true x)) by done. by rewrite IH.
Qed.

Lemma join_valid_head l :
  Forall valid_part l → l ≠ [] →
  ∃ c r, join "/" l = String c r ∧ c ≠ "/"%char.
Proof.
  intros Hl Hne. destruct Hl as [|x l (Hx & _ & Hc) _]; [done|].
  rewrite join_cons. destruct x as [|c x]; [done|].
  rewrite app_cons. eexists _, _. split; [done|].
  simpl in Hc. destruct (Ascii.eqb_spec c "/"); [done|done].
Qed.

Lemma splitroot_relative c r :
  c ≠ "/"%char → splitroot (String c r) = ("", String c r).
Proof.
  intros Hc. unfold splitroot. cbn [slice_to String.eqb].
  by destruct (Ascii.eqb_spec c "/").
Qed.

Lemma valid_tail_split l :
  Forall valid_part l →
  List.filter keep_part (split "/" (join "/" l)) = l.
Proof.
  intros Hl. destruct l as [|x l]; [done|].
  rewrite split_join; [by apply filter_keep_valid|done|].
  eapply Forall_impl; [exact Hl|]. by intros ? (_ & _ & ?).
Qed.

(** The text of a parsed path parses to it again. *)
Lemma of_to_str p : valid_path p → of_str (to_str p) = p.
Proof.
  destruct p as [rt tl]. intros [Hroot Htail]. simpl in *.
  unfold to_str. cbn [root tail].
  destruct tl as [|x tl].
  - destruct Hroot as [->|[->| ->]]; reflexivity.
  - destruct (join_valid_head (x :: tl) Htail) as (c & r & Hj & Hc); [done|].
    pose proof (valid_tail_split _ Htail) as Hsplit.
    destruct Hroot as [->|[->| ->]]; rewrite Hj in *.
    + rewrite app_nil_l. cbn [truthy]. unfold of_str.
      rewrite splitroot_relative by done. by rewrite Hsplit.
    + rewrite app_cons, app_nil_l. cbn [truthy]. unfold of_str, splitroot.
      cbn [slice_to slice_from String.eqb Ascii.eqb Bool.eqb andb negb orb].
      destruct (Ascii.eqb_spec c "/"); [done|]. cbn [andb negb orb].
      by rewrite Hsplit.
    + rewrite !app_cons, app_nil_l. cbn [truthy]. unfold of_str, splitroot.
      cbn [slice_to slice_from String.eqb Ascii.eqb Bool.eqb andb negb orb].
      destruct (Ascii.eqb_spec c "/"); [done|]. cbn [andb negb orb].
      by rewrite Hsplit.
Qed.

Lemma snd_splitroot_app r t c :
  c ≠ "/"%char → ∃ rel, (splitroot (r +:+ String c t)).2 = rel +:+ String c t.
Proof.
  intros Hc.
  destruct (splitroot_cases (r +:+ String c t))
    as [[-> _]|[(r1 & Hs & ->)|(r2 & Hs & -> & _)]]; simpl.
  - by exists r.
  - destruct r as [|a r]; [by injection Hs|].
    rewrite app_cons in Hs. injection Hs as _ <-. by exists r.
  - destruct r as [|a r]; [by injection Hs|].
    rewrite app_cons in Hs. injection Hs as _ Hs.
    destruct r as [|b r]; [by injection Hs|].
    rewrite app_cons in Hs. injection Hs as _ <-. by exists r.
Qed.

Lemma truthy_app_cons s c t : truthy (s +:+ String c t) = true.
Proof. by destruct s. Qed.

Lemma app_cons_ne s c t u : String.length u ≤ String.length t → s +:+ String c t ≠ u.
Proof.
  intros Hlen E. apply (f_equal String.length) in E.
  rewrite length_app in E. simpl in E. lia.
Qed.

Lemma last_elem (l : list string) d : l ≠ [] → List.last l d ∈ l.
Proof.
  induction l as [|a l IH]; [done|]. intros _.
  destruct l as [|b l]; [left|]. right. by apply IH.
Qed.

(** The last component of a text that ends with a suffix without slash
    ends with it. *)
Lemma of_str_suffixed r c t :
  c ≠ "/"%char → count "/" t = 0 → t ≠ "" →
  ∃ parts x, tail (of_str (r +:+ String c t)) = parts ++ [x +:+ String c t] ∧
             count "/" x = 0.
Proof.
  intros Hc Ht Hne. unfold of_str.
  destruct (snd_splitroot_app r t c Hc) as [rel Hrel].
  destruct (splitroot (r +:+ String c t)) as [rt rel']. simpl in Hrel. subst rel'.
  cbn [tail]. rewrite split_app_free
    by (simpl; by destruct (Ascii.eqb_spec c "/")).
  rewrite List.filter_app. cbn [List.filter].
  rewrite (proj2 (keep_part_true _)).
  - eexists _, _. split; [done|].
    pose proof (split_no_sep "/" rel) as Hall.
    destruct (split_cons "/" rel) as (y & ys & Hy). rewrite Hy in *.
    rewrite Forall_forall in Hall. apply Hall. by apply last_elem.
  - destruct t as [|c' t']; [done|]. split; apply app_cons_ne; simpl; lia.
Qed.

Section Name.

Variables (p : t) (parts : list string) (x t : string).
Hypothesis Htail : tail p = parts ++ [x +:+ String "." t].
Hypothesis Hdot : count "." t = 0.
Hypothesis Ht : t ≠ "".

Lemma name_last : name p = x +:+ String "." t.
Proof. unfold name. by rewrite Htail, last_last. Qed.

Lemma cut_condition :
  ((0 <? rfind "." (name p))%Z
   && (rfind "." (name p) <? Z.of_nat (String.length (name p)) - 1)%Z)
  = negb (String.eqb x "").
Proof.
  rewrite name_last, rfind_last by done. rewrite length_app.
  destruct t as [|c t']; [done|].
  destruct x as [|a x']; [done|].
  cbn [String.eqb negb String.length].
  apply andb_true_iff. split; apply Z.ltb_lt; lia.
Qed.

Lemma suffix_last : x ≠ "" → suffix p = String "." t.
Proof.
  intros Hx. unfold suffix. rewrite cut_condition.
  destruct (String.eqb_spec x ""); [done|]. simpl.
  rewrite name_last, rfind_last by done.
  by rewrite Nat2Z.id, slice_from_app.
Qed.

Lemma stem_last : x ≠ "" → stem p = x.
Proof.
  intros Hx. unfold stem. rewrite cut_condition.
  destruct (String.eqb_spec x ""); [done|]. simpl.
  rewrite name_last, rfind_last by done.
  by rewrite Nat2Z.id, slice_to_app.
Qed.

Lemma suffix_hidden : x = "" → suffix p = "".
Proof. intros Hx. unfold suffix. rewrite cut_condition. by rewrite Hx. Qed.

Lemma stem_hidden : x = "" → stem p = String "." t.
Proof.
  intros Hx. unfold stem. rewrite cut_condition, name_last. by rewrite Hx.
Qed.

End Name.

(** [with_suffix] on a name with the feature suffix: the directory is
    kept, the new name ends with the document suffix and has the old stem. *)
Lemma with_suffix_md p parts x :
  tail p = parts ++ [x +:+ ".feature"] → count "/" x = 0 →
  ∃ name',
    with_suffix p ".md" = Ok (mk (root p) (parts ++ [name'])) ∧
    endswith name' ".md" = true ∧
    stem (mk (root p) (parts ++ [name'])) = stem p ∧
    valid_part name'.
Proof.
  intros Htail Hx. unfold with_suffix.
  rewrite (name_last p parts x "feature" Htail).
  rewrite truthy_app_cons. cbn [negb].
  rewrite Htail, removelast_last.
  destruct (String.eqb_spec x "") as [->|Hne].
  - rewrite (suffix_hidden p parts "" "feature" Htail) by done.
    exists ".feature.md". cbn [truthy negb]. split; [done|]. split; [done|].
    split; [|done].
    rewrite (stem_hidden p parts "" "feature" Htail) by done.
    by rewrite (stem_last _ parts ".feature" "md").
  - rewrite (suffix_last p parts x "feature" Htail) by done.
    cbn [truthy negb]. rewrite length_app.
    replace (String.length x + String.length ".feature" -
             String.length ".feature") with (String.length x) by (simpl; lia).
    rewrite slice_to_app. exists (x +:+ ".md").
    split; [done|]. split; [apply endswith_app|]. split.
    + rewrite (stem_last p parts x "feature" Htail) by done.
      by rewrite (stem_last _ parts x "md").
    + split; [by apply app_cons_ne; simpl; lia|].
      split; [by apply app_cons_ne; simpl; lia|].
      rewrite count_app, Hx. done.
Qed.

Lemma count_slice_to c k s : count c s = 0 → count c (slice_to k s) = 0.
Proof.
  revert k. induction s as [|a s IH]; intros [|k]; simpl; try done.
  destruct (Ascii.eqb a c); [done|]. apply IH.
Qed.

(** [with_suffix] keeps a parsed path parsed, and its result has a name. *)
Lemma with_suffix_valid p t p' :
  valid_path p → count "/" t = 0 → t ≠ "" →
  with_suffix p (String "." t) = Ok p' →
  valid_path p' ∧ truthy (name p') = true.
Proof.
  intros [Hroot Htail] Ht Hne. unfold with_suffix.
  destruct (truthy (name p)) eqn:Hname; [|done]. cbn [negb].
  intros [= <-]. unfold name in *.
  destruct (tail p) as [|y ys] eqn:E; [done|].
  destruct (@exists_last _ (y :: ys)) as (l & n & El); [done|].
  rewrite El in *. rewrite last_last in *. rewrite removelast_last.
  apply Forall_app in Htail as [Hl Hn]. apply Forall_cons in Hn as [Hn _].
  destruct Hn as (_ & _ & Hn).
  cbn [root tail]. rewrite last_last. split; [|destruct (negb _); apply truthy_app_cons].
  split; [done|]. apply Forall_app. split; [done|].
  constructor; [|constructor].
  destruct t as [|c t']; [done|].
  destruct (negb _).
  - split; [apply app_cons_ne; simpl; lia|].
    split; [apply app_cons_ne; simpl; lia|].
    rewrite count_app, Hn. exact Ht.
  - split; [apply app_cons_ne; simpl; lia|].
    split; [apply app_cons_ne; simpl; lia|].
    rewrite count_app, count_slice_to by done. exact Ht.
Qed.

(** A handled path, as [on_files] makes them, converts back without a
    raise; when the name of the feature file is not just the suffix, it
    converts back to the path of the feature file. *)
Lemma handled_converts p md :
  valid_path p → with_suffix p ".md" = Ok md →
  ∃ fp, with_suffix (of_str (to_str md)) ".feature" = Ok fp.
Proof.
  intros Hp Hmd.
  destruct (with_suffix_valid p "md" md Hp) as [Hv Hn]; [done..|].
  rewrite (of_to_str md Hv). unfold with_suffix. rewrite Hn. by eexists.
Qed.

Lemma with_suffix_named p parts x t s :
  tail p = parts ++ [x +:+ String "." t] → count "." t = 0 → t ≠ "" → x ≠ "" →
  with_suffix p s = Ok (mk (root p) (parts ++ [x +:+ s])).
Proof.
  intros Htail Hdot Ht Hx. unfold with_suffix.
  rewrite (name_last p parts x t Htail), truthy_app_cons. cbn [negb].
  rewrite (suffix_last p parts x t Htail) by done.
  cbn [truthy negb]. rewrite Htail, removelast_last, length_app.
  replace (String.length x + String.length (String "." t) -
           String.length (String "." t)) with (String.length x) by lia.
  by rewrite slice_to_app.
Qed.

Lemma with_suffix_back p parts x :
  tail p = parts ++ [x +:+ ".feature"] → x ≠ "" →
  with_suffix p ".md" ≫= (fun md => with_suffix md ".feature") = Ok p.
Proof.
  intros Htail Hx.
  rewrite (with_suffix_named p parts x "feature" ".md") by done. simpl.
  rewrite (with_suffix_named _ parts x "md" ".feature") by done.
  destruct p as [rt tl]. simpl in *. by rewrite Htail.
Qed.

End PathFacts.

(** ** The suffix rewrite *)

Section Rename.

Import Path StrFacts PathFacts.

Lemma with_suffix_feature_leaf s :
  endswith s ".feature" = true →
  ∃ p', with_suffix (of_str s) ".md" = Ok p' ∧
        valid_path p' ∧
        endswith (to_str p') ".md" = true ∧
        parent p' = parent (of_str s) ∧
        stem p' = stem (of_str s).
Proof.
  intros [r ->]%endswith_inv.
  destruct (of_str_suffixed r "." "feature") as (parts & x & Htail & Hx);
    [done..|].
  destruct (with_suffix_md _ parts x Htail Hx) as (name' & Hw & Hend & Hstem & Hv).
  pose proof (of_str_valid (r +:+ ".feature")) as [Hroot Hparts].
  rewrite Htail in Hparts. apply Forall_app in Hparts as [Hparts _].
  eexists. split; [exact Hw|]. split; [|split; [|split]].
  - split; [done|]. cbn [tail]. apply Forall_app. split; [done|].
    constructor; [done|constructor].
  - unfold to_str. cbn [root tail].
    destruct (join_snoc "/" parts name') as [pre ->].
    apply endswith_inv in Hend as [y ->].
    rewrite <- !app_assoc. rewrite truthy_app_cons. apply endswith_app.
  - unfold parent. cbn [root tail]. rewrite Htail, !removelast_last.
    by destruct parts.
  - done.
Qed.

Lemma process_leaf s :
  ∃ s', process_element (Leaf s) = Ok (Leaf s') ∧ renamed_leaf s s'.
Proof.
  cbn [process_element]. unfold renamed_leaf.
  destruct (endswith s ".feature") eqn:E.
  - destruct (with_suffix_feature_leaf s E) as (p' & -> & Hv & Hend & Hpar & Hstem).
    eexists. split; [done|]. split; [|done]. intros _.
    by rewrite (of_to_str p' Hv).
  - eexists. split; [done|]. split; [done|]. done.
Qed.

Lemma process_element_single element :
  single_key element →
  ∃ element', process_element element = Ok element' ∧
              leafwise renamed_leaf element element'.
Proof.
  induction element as [s|d IH] using NavElement_ind; intros Hs.
  - destruct (process_leaf s) as (s' & -> & HR). eexists. split; [done|].
    by constructor.
  - inversion Hs as [|k v Hv]; subst.
    apply Forall_cons in IH as [IH _]. simpl in IH.
    rewrite process_element_group.
    assert (∃ v', process v = Ok v' ∧ Forall2 (leafwise renamed_leaf) v v')
      as (v' & -> & Hv').
    { clear Hs. induction IH as [|e v He _ IHv].
      - exists []. split; [done|constructor].
      - apply Forall_cons in Hv as [Hse Hv].
        destruct (He Hse) as (e' & He' & Hl).
        destruct (IHv Hv) as (v' & Hpv & Hlv). simpl.
        rewrite He', Hpv. exists (e' :: v'). split; [done|]. by constructor. }
    eexists. split; [done|]. constructor. constructor; [|constructor].
    split; [done|]. exact Hv'.
Qed.

(** C5: on a tree whose mappings have one key each the rewrite returns a
    tree of the same shape whose leaves correspond one to one to the old
    ones, at every depth: a leaf with the feature suffix has become a leaf
    with the document suffix in the same directory and with the same stem,
    and every other leaf is what it was. *)
Theorem rename_is_leafwise (nav_tree : NavTree) :
  Forall single_key nav_tree →
  ∃ nav_tree', _rename_features_in_nav nav_tree = Ok nav_tree' ∧
               Forall2 (leafwise renamed_leaf) nav_tree nav_tree'.
Proof.
  unfold _rename_features_in_nav. induction 1 as [|e nav He _ IH].
  - exists []. split; [done|constructor].
  - destruct (process_element_single e He) as (e' & He' & Hl).
    destruct IH as (nav' & Hp & Hall). simpl. rewrite He', Hp.
    exists (e' :: nav'). split; [done|]. by constructor.
Qed.

End Rename.

Lemma rename_is_leafwise_witness :
  Forall single_key
    [Leaf "features/a.feature";
     Group [("Group", [Leaf "features/group/b.feature"; Leaf "index.md"])]] ∧
  ∃ nav',
    _rename_features_in_nav
      [Leaf "features/a.feature";
       Group [("Group", [Leaf "features/group/b.feature"; Leaf "index.md"])]] =
    Ok nav' ∧
    Forall2 (leafwise renamed_leaf)
      [Leaf "features/a.feature";
       Group [("Group", [Leaf "features/group/b.feature"; Leaf "index.md"])]]
      nav'.
Proof.
  set (nav := [Leaf "features/a.feature";
               Group [("Group", [Leaf "features/group/b.feature";
                                 Leaf "index.md"])]]).
  assert (Forall single_key nav) as H by (repeat constructor).
  split; [exact H|]. exact (rename_is_leafwise nav H).
Defined.

(** ** Merge, then rewrite *)

Section MergeRename.

Import StrFacts.

Lemma leaf_in_elem s (nav : NavTree) : leaf_in s nav = true ↔ Leaf s ∈ nav.
Proof.
  unfold leaf_in. rewrite existsb_exists. split.
  - intros ([s'|d] & Hin & Heq); [|done].
    apply String.eqb_eq in Heq as ->. by apply list_elem_of_In.
  - intros Hin. exists (Leaf s). split; [by apply list_elem_of_In|].
    apply String.eqb_refl.
Qed.

Lemma process_lookup (nav nav' : NavTree) i element :
  process nav = Ok nav' → nav !! i = Some element →
  ∃ element', process_element element = Ok element' ∧ nav' !! i = Some element'.
Proof.
  revert nav' i. induction nav as [|e nav IH]; intros nav' i Hp Hi; [done|].
  simpl in Hp. apply bind_ok in Hp as (e' & He' & Hp).
  apply bind_ok in Hp as (r' & Hr' & [= <-]).
  destruct i as [|i]; simpl in *.
  - injection Hi as <-. by exists e'.
  - by eapply IH.
Qed.

(** C10: the document form [m] of a feature path [f] in the entry does not
    keep the merge from adding the leaf [f], which is compared with the
    paths as they are before the rewrite; after the rewrite the level holds
    [m] at two places. *)
Theorem merge_then_rename_duplicates
    (features_entry feature_tree M R : NavTree) (f m : string) :
  endswith f ".feature" = true →
  process_element (Leaf f) = Ok (Leaf m) →
  Leaf m ∈ features_entry →
  Leaf f ∈ feature_tree →
  _merge_features_into_nav features_entry feature_tree = Ok M →
  _rename_features_in_nav M = Ok R →
  (leaf_in f features_entry = false →
   merge_element (Leaf f) features_entry = Ok (features_entry ++ [Leaf f])) ∧
  Leaf f ∈ M ∧
  ∃ i j, i ≠ j ∧ R !! i = Some (Leaf m) ∧ R !! j = Some (Leaf m).
Proof.
  unfold _merge_features_into_nav, _rename_features_in_nav.
  intros Hf Hfm Hm Hsrc Hmerge Hren.
  assert (endswith m ".feature" = false) as Hmd.
  { destruct (process_leaf f) as (m' & Hm' & [HR _]).
    rewrite Hfm in Hm'. injection Hm' as <-.
    destruct (HR Hf) as (Hend & _).
    by apply (endswith_differs m ".m" ".featur" "d" "e"). }
  assert (Leaf m ∈ M) as HmM.
  { apply leaf_in_elem.
    assert (absorbs M (Leaf m)) as Ha.
    { eapply merge_keeps_absorbed; [exact Hmerge|].
      constructor. by apply leaf_in_elem. }
    by inversion Ha. }
  assert (Leaf f ∈ M) as HfM.
  { apply leaf_in_elem. pose proof (merge_absorbs _ _ _ Hmerge) as Hall.
    rewrite Forall_forall in Hall. specialize (Hall _ Hsrc). by inversion Hall. }
  split; [|split; [done|]].
  - intros Hnot. simpl. by rewrite Hnot.
  - apply list_elem_of_lookup in HmM as [i Hi].
    apply list_elem_of_lookup in HfM as [j Hj].
    exists i, j. split.
    + intros ->. rewrite Hi in Hj. injection Hj as ->. by rewrite Hf in Hmd.
    + destruct (process_lookup _ _ _ _ Hren Hi) as (e1 & H1 & ->).
      destruct (process_lookup _ _ _ _ Hren Hj) as (e2 & H2 & ->).
      rewrite Hfm in H2. injection H2 as <-.
      simpl in H1. rewrite Hmd in H1. by injection H1 as <-.
Qed.

End MergeRename.

Lemma merge_then_rename_duplicates_witness :
  _merge_features_into_nav
    [Leaf "features/a.md"]
    (_build_feature_tree [Path.of_str "features/a.feature"]) =
    Ok [Leaf "features/a.md"; Leaf "features/a.feature"] ∧
  _rename_features_in_nav [Leaf "features/a.md"; Leaf "features/a.feature"] =
    Ok [Leaf "features/a.md"; Leaf "features/a.md"] ∧
  ∃ i j, i ≠ j ∧
    [Leaf "features/a.md"; Leaf "features/a.md"] !! i = Some (Leaf "features/a.md") ∧
    [Leaf "features/a.md"; Leaf "features/a.md"] !! j = Some (Leaf "features/a.md").
Proof.
  set (features_entry := [Leaf "features/a.md"]).
  set (feature_tree := _build_feature_tree [Path.of_str "features/a.feature"]).
  assert (_merge_features_into_nav features_entry feature_tree =
          Ok [Leaf "features/a.md"; Leaf "features/a.feature"]) as Hm
    by reflexivity.
  assert (_rename_features_in_nav [Leaf "features/a.md"; Leaf "features/a.feature"] =
          Ok [Leaf "features/a.md"; Leaf "features/a.md"]) as Hr
    by reflexivity.
  split; [exact Hm|]. split; [exact Hr|].
  refine (proj2 (proj2 (merge_then_rename_duplicates
            features_entry feature_tree _ _
            "features/a.feature" "features/a.md" eq_refl eq_refl _ _ Hm Hr))).
  - left.
  - left.
Defined.

(** ** The process and the hooks *)

(** C8: whatever the nested run does, and whether it returns, exits with
    any code or raises anything else, the argument vector after
    [_run_behave] is the one before it. *)
Theorem run_behave_restores_argv
    (run_module : World → World * option exn) (self : BehavePlugin) (w : World) :
  argv (_run_behave run_module self w).1 = argv w.
Proof.
  unfold _run_behave.
  destruct (run_module _) as [w' [[| | |code|]|]]; try done.
Qed.

Lemma run_behave_outcome
    (run_module : World → World * option exn) (self : BehavePlugin) (w : World) :
  match (run_module (set_argv behave_argv
           (set_formatter (_step_highlight_regexes self) w))).2 with
  | Some (SystemExit _) | None => (_run_behave run_module self w).2 = None
  | Some e => (_run_behave run_module self w).2 = Some e
  end.
Proof.
  unfold _run_behave.
  destruct (run_module _) as [w' [[| | |code|]|]]; done.
Qed.

(** C6: for a source uri in the handled set the page source is the text
    stored for the path with the feature suffix put back, and a [KeyError]
    where nothing is stored for it, never a text of its own making; for
    any other uri it is [None]. *)
Theorem page_source_lookup (self : BehavePlugin) (w : World) (src_uri : string) :
  (src_uri ∈ _handled_feature_files self →
   ∀ feature_path,
     Path.with_suffix (Path.of_str src_uri) ".feature" = Ok feature_path →
     match rendered_features w !! Path.to_str feature_path with
     | Some text => on_page_read_source self w src_uri = Ok (Some text)
     | None => on_page_read_source self w src_uri =
               Raise (KeyError (Path.to_str feature_path))
     end) ∧
  (src_uri ∈ _handled_feature_files self →
   ∀ r, on_page_read_source self w src_uri = Ok r →
        ∃ feature_path text,
          r = Some text ∧ rendered_features w !! feature_path = Some text) ∧
  (src_uri ∉ _handled_feature_files self →
   on_page_read_source self w src_uri = Ok None).
Proof.
  unfold on_page_read_source. split; [|split].
  - intros Hin fp Hfp. rewrite bool_decide_eq_true_2 by done.
    rewrite Hfp. simpl. by destruct (rendered_features w !! _).
  - intros Hin r. rewrite bool_decide_eq_true_2 by done.
    destruct (Path.with_suffix _ _) as [fp|]; [|done]. simpl.
    destruct (rendered_features w !! _) as [text|] eqn:E; [|done].
    intros [= <-]. by eexists _, _.
  - intros Hnot. by rewrite bool_decide_eq_false_2.
Qed.

Lemma page_source_lookup_witness :
  "features/a.md" ∈
    _handled_feature_files
      (mkPlugin (mkConfig "/docs/features" "Features" true true) [] {["features/a.md"]}) ∧
  on_page_read_source
    (mkPlugin (mkConfig "/docs/features" "Features" true true) [] {["features/a.md"]})
    (mkWorld [] None {["features/a.feature" := "# A"]} [])
    "features/a.md" = Ok (Some "# A").
Proof.
  set (self := mkPlugin (mkConfig "/docs/features" "Features" true true) [] {["features/a.md"]}).
  set (w := mkWorld [] None {["features/a.feature" := "# A"]} []).
  assert ("features/a.md" ∈ _handled_feature_files self) as Hin
    by (unfold self; cbn [_handled_feature_files]; apply elem_of_singleton_2;
        reflexivity).
  split; [exact Hin|].
  exact (proj1 (page_source_lookup self w "features/a.md") Hin
           (Path.mk "" ["features"; "a.feature"]) eq_refl).
Defined.

(** ** The scenarios of the specification *)

Example description_scenario :
  feature [] (mkFeature "F" ["smoke"; "slow"] ["Intro"; "."; ". escaped"] None []) =
  "# F" +:+ nl +:+ "!!! note" +:+ nl +:+ "    @smoke @slow" +:+ nl +:+ nl +:+
  "Intro" +:+ nl +:+ nl +:+ "escaped" +:+ nl +:+ nl +:+ "## Scenarios" +:+ nl.
Proof. reflexivity. Qed.

Example populate_scenario :
  match on_files (fun w => (w, None))
          (mkPlugin (mkConfig "/docs/features" "Features" true true) [] ∅) "/docs" "site"
          [Path.of_str "features/a.feature"; Path.of_str "features/group/b.feature"]
          [] [] (mkWorld ["mkdocs"; "build"] None ∅ []) with
  | Ok out =>
      out_nav out =
        [Group [("Features",
                 [Leaf "features/a.md";
                  Group [("Group", [Leaf "features/group/b.md"])]])]] ∧
      map file_path (out_files out) = ["features/a.md"; "features/group/b.md"] ∧
      argv (out_world out) = ["mkdocs"; "build"]
  | Raise _ => False
  end.
Proof. vm_compute. done. Qed.

Example warn_missing_scenario :
  match on_files (fun w => (w, None))
          (mkPlugin (mkConfig "/docs/features" "Features" false true) [] ∅) "/docs" "site"
          [Path.of_str "features/a.feature"; Path.of_str "features/c.feature"]
          [] [Group [("Features", [Leaf "features/a.feature"])]]
          (mkWorld ["mkdocs"; "build"] None ∅ []) with
  | Ok out =>
      out_nav out = [Group [("Features", [Leaf "features/a.md"])]] ∧
      map file_path (out_files out) = ["features/a.md"] ∧
      log (out_world out) =
        ["Feature file 'features/c.feature' is present on disk, but is not included in the 'nav' configuration."]
  | Raise _ => False
  end.
Proof. vm_compute. done. Qed.

(** The nested run exits with status 1 before it has rendered anything:
    the build goes on with a warning, and the page of the feature raises. *)
Example failed_run_scenario :
  match on_files (fun w => (w, Some (SystemExit (CodeInt 1))))
          (mkPlugin (mkConfig "/docs/features" "Features" true true) [] ∅) "/docs" "site"
          [Path.of_str "features/a.feature"] [] []
          (mkWorld ["mkdocs"; "build"] None ∅ []) with
  | Ok out =>
      log (out_world out) =
        ["Behave did not complete successfully. Some features may not have been processed."] ∧
      on_page_read_source (out_self out) (out_world out) "features/a.md" =
        Raise (KeyError "features/a.feature")
  | Raise _ => False
  end.
Proof. vm_compute. done. Qed.

(** The entry of the heading already lists the document of a feature file:
    after [on_files] it lists it twice. *)
Example document_listed_twice :
  match on_files (fun w => (w, None))
          (mkPlugin (mkConfig "/docs/features" "Features" true true) [] ∅) "/docs" "site"
          [Path.of_str "features/a.feature"] []
          [Group [("Features", [Leaf "features/a.md"])]]
          (mkWorld ["mkdocs"; "build"] None ∅ []) with
  | Ok out =>
      out_nav out =
        [Group [("Features", [Leaf "features/a.md"; Leaf "features/a.md"])]]
  | Raise _ => False
  end.
Proof. vm_compute. done. Qed.

(** A feature file whose name is only the suffix gets the document suffix
    appended, and the way back appends the feature suffix. *)
Example hidden_name :
  (Path.to_str <$> match Path.with_suffix (Path.of_str "features/.feature") ".md" with
                   | Ok p => Some p | Raise _ => None end) =
    Some "features/.feature.md" ∧
  (Path.to_str <$> match Path.with_suffix (Path.of_str "features/.feature.md") ".feature" with
                   | Ok p => Some p | Raise _ => None end) =
    Some "features/.feature.feature".
Proof. split; reflexivity. Qed.

(** The parser normalises what it reads. *)
Example normalised_leaf :
  _rename_features_in_nav [Leaf "./features//a.feature"] = Ok [Leaf "features/a.md"].
Proof. reflexivity. Qed.

(** * Further properties *)

(** ** Search and rewrite *)

Section SearchRewrite.

Import StrFacts.

Lemma renamed_not_feature s s' :
  process_element (Leaf s) = Ok (Leaf s') → endswith s' ".feature" = false.
Proof.
  intros Hp. destruct (process_leaf s) as (m & Hm & [HR Hsame]).
  rewrite Hp in Hm. injection Hm as <-.
  destruct (endswith s ".feature") eqn:E.
  - destruct (HR eq_refl) as (Hend & _).
    by apply (endswith_differs s' ".m" ".featur" "d" "e").
  - by rewrite (Hsame eq_refl).
Qed.

Lemma process_element_leaf_inv s e :
  process_element (Leaf s) = Ok e → ∃ s', e = Leaf s'.
Proof.
  destruct (process_leaf s) as (m & -> & _). intros [= <-]. by eexists.
Qed.

Lemma process_element_settled element element' :
  process_element element = Ok element' →
  find_element element' = Ok [] ∧ process_element element' = Ok element'.
Proof.
  revert element'.
  induction element as [s|d IH] using NavElement_ind; intros element' Hp.
  - destruct (process_element_leaf_inv _ _ Hp) as [s' ->].
    pose proof (renamed_not_feature _ _ Hp) as Hs'. simpl. by rewrite Hs'.
  - destruct d as [|[k v] d]; [done|].
    apply Forall_cons in IH as [IH _]. simpl in IH.
    rewrite process_element_group in Hp.
    apply bind_ok in Hp as (v' & Hv & [= <-]).
    rewrite find_element_group, process_element_group.
    assert (find v' = Ok [] ∧ process v' = Ok v') as [-> ->]; [|done].
    revert v' Hv. induction IH as [|e v He _ IHv]; intros v' Hv; simpl in Hv.
    + by injection Hv as <-.
    + apply bind_ok in Hv as (e' & He' & Hv).
      apply bind_ok in Hv as (r' & Hr' & [= <-]).
      destruct (He _ He') as [Hf Hp]. destruct (IHv _ Hr') as [Hfr Hpr].
      simpl. by rewrite Hf, Hp, Hfr, Hpr.
Qed.

Lemma process_settled (nav nav' : NavTree) :
  process nav = Ok nav' → find nav' = Ok [] ∧ process nav' = Ok nav'.
Proof.
  revert nav'. induction nav as [|e nav IH]; intros nav' Hp; simpl in Hp.
  - by injection Hp as <-.
  - apply bind_ok in Hp as (e' & He' & Hp).
    apply bind_ok in Hp as (r' & Hr' & [= <-]).
    destruct (process_element_settled _ _ He') as [Hf Hpe].
    destruct (IH _ Hr') as [Hfr Hpr]. simpl. by rewrite Hf, Hpe, Hfr, Hpr.
Qed.

(** X1: in a tree that the rewrite has returned the search finds no feature
    path: what the search can reach, the rewrite has reached. *)
Theorem search_after_rename_is_empty (nav_tree nav_tree' : NavTree) :
  _rename_features_in_nav nav_tree = Ok nav_tree' →
  _get_feature_paths_in_nav nav_tree' = Ok [].
Proof. intros H. by apply process_settled in H as [? _]. Qed.

(** X2: the rewrite of a rewritten tree returns it unchanged. *)
Theorem rename_twice (nav_tree nav_tree' : NavTree) :
  _rename_features_in_nav nav_tree = Ok nav_tree' →
  _rename_features_in_nav nav_tree' = Ok nav_tree'.
Proof. intros H. by apply process_settled in H as [_ ?]. Qed.

Lemma find_element_raises element x :
  find_element element = Raise x → x = StopIteration.
Proof.
  induction element as [s|d IH] using NavElement_ind; [done|].
  destruct d as [|[k v] d]; [by intros [= <-]|].
  apply Forall_cons in IH as [IH _]. simpl in IH.
  rewrite find_element_group.
  induction IH as [|e v He _ IHv]; [done|]. simpl.
  destruct (find_element e) as [a|y] eqn:E; simpl.
  - destruct (find v) as [b|z]; simpl; [done|]. intros [= <-]. by apply IHv.
  - intros [= <-]. by apply He.
Qed.

Lemma find_raises (nav : NavTree) x : find nav = Raise x → x = StopIteration.
Proof.
  induction nav as [|e nav IH]; [done|]. simpl.
  destruct (find_element e) as [a|y] eqn:E; simpl.
  - destruct (find nav) as [b|z]; simpl; [done|]. intros [= <-]. by apply IH.
  - intros [= <-]. by eapply find_element_raises.
Qed.

Lemma process_list_raises (nav : NavTree) :
  Forall (fun e => ∀ x, process_element e = Raise x → x = StopIteration) nav →
  ∀ x, process nav = Raise x → x = StopIteration.
Proof.
  induction 1 as [|e v He _ IHv]; intros x; [done|]. simpl.
  destruct (process_element e) as [a|z] eqn:E; simpl.
  - destruct (process v) as [b|z]; simpl; [done|]. intros [= <-]. by apply IHv.
  - intros [= <-]. by apply He.
Qed.

Lemma process_element_raises element :
  ∀ x, process_element element = Raise x → x = StopIteration.
Proof.
  induction element as [s|d IH] using NavElement_ind; intros x.
  - destruct (process_leaf s) as (m & -> & _). done.
  - destruct d as [|[k v] d]; [by intros [= <-]|].
    apply Forall_cons in IH as [IH _]. simpl in IH.
    rewrite process_element_group.
    destruct (process v) as [v'|y] eqn:Ev; [done|]. simpl. intros [= <-].
    by eapply process_list_raises.
Qed.

Lemma process_raises (nav : NavTree) x : process nav = Raise x → x = StopIteration.
Proof.
  apply process_list_raises. apply Forall_forall. intros e _.
  apply process_element_raises.
Qed.

(** X3: the search and the rewrite raise nothing but [StopIteration]; in
    particular the rewrite never fails on the path of a leaf.  Both raise it
    when the level they are given holds an empty dict. *)
Theorem traversals_raise_stop_iteration (nav_tree : NavTree) :
  (∀ x, _get_feature_paths_in_nav nav_tree = Raise x → x = StopIteration) ∧
  (∀ x, _rename_features_in_nav nav_tree = Raise x → x = StopIteration) ∧
  (Group [] ∈ nav_tree →
   _get_feature_paths_in_nav nav_tree = Raise StopIteration ∧
   _rename_features_in_nav nav_tree = Raise StopIteration).
Proof.
  unfold _get_feature_paths_in_nav, _rename_features_in_nav.
  split; [apply find_raises|]. split; [apply process_raises|].
  induction nav_tree as [|e nav IH]; [by intros ?%elem_of_nil|].
  intros [<-|Hin]%elem_of_cons; [done|].
  destruct (IH Hin) as [Hf Hp]. simpl. rewrite Hf, Hp. split.
  - destruct (find_element e) as [a|y] eqn:E; [done|]. simpl.
    by rewrite (find_element_raises _ _ E).
  - destruct (process_element e) as [a|y] eqn:E; [done|]. simpl.
    by rewrite (process_element_raises _ _ E).
Qed.

Lemma traversals_raise_stop_iteration_witness :
  Group [] ∈ [Leaf "index.md"; Group []] ∧
  _get_feature_paths_in_nav [Leaf "index.md"; Group []] = Raise StopIteration ∧
  _rename_features_in_nav [Leaf "index.md"; Group []] = Raise StopIteration.
Proof.
  assert (Group [] ∈ [Leaf "index.md"; Group []]) as H by (right; left).
  split; [exact H|].
  exact (proj2 (proj2 (traversals_raise_stop_iteration
                         [Leaf "index.md"; Group []])) H).
Defined.

Lemma find_element_leaves element :
  single_key element →
  find_element element =
  Ok (map Path.of_str (List.filter has_feature_suffix (leaves_element element))).
Proof.
  induction element as [s|d IH] using NavElement_ind; intros Hs.
  - simpl. unfold has_feature_suffix. by destruct (endswith s ".feature").
  - inversion Hs as [|k v Hv]; subst.
    apply Forall_cons in IH as [IH _]. simpl in IH.
    rewrite find_element_group. cbn [leaves_element flat_map snd].
    rewrite List.app_nil_r.
    induction IH as [|e v He _ IHv]; [done|].
    apply Forall_cons in Hv as [Hse Hv]. simpl.
    rewrite (He Hse), IHv by (done || by constructor). simpl.
    by rewrite List.filter_app, map_app.
Qed.

(** X4: on a tree whose mappings have one key each the search returns the
    parsed paths of exactly the leaves with the feature suffix, at every
    depth, in the order of the tree. *)
Theorem search_reports_feature_leaves (nav_tree : NavTree) :
  Forall single_key nav_tree →
  _get_feature_paths_in_nav nav_tree =
  Ok (map Path.of_str (List.filter has_feature_suffix (leaves nav_tree))).
Proof.
  unfold _get_feature_paths_in_nav, leaves.
  induction 1 as [|e nav He _ IH]; [done|]. simpl.
  rewrite (find_element_leaves e He), IH. simpl.
  by rewrite List.filter_app, map_app.
Qed.

End SearchRewrite.

Lemma search_after_rename_is_empty_witness :
  _rename_features_in_nav
    [Leaf "features/a.feature"; Group [("G", [Leaf "features/g/b.feature"])]] =
    Ok [Leaf "features/a.md"; Group [("G", [Leaf "features/g/b.md"])]] ∧
  _get_feature_paths_in_nav
    [Leaf "features/a.md"; Group [("G", [Leaf "features/g/b.md"])]] = Ok [].
Proof.
  assert (_rename_features_in_nav
            [Leaf "features/a.feature";
             Group [("G", [Leaf "features/g/b.feature"])]] =
          Ok [Leaf "features/a.md"; Group [("G", [Leaf "features/g/b.md"])]])
    as H by reflexivity.
  split; [exact H|]. exact (search_after_rename_is_empty _ _ H).
Defined.

Lemma rename_twice_witness :
  _rename_features_in_nav
    [Leaf "features/a.feature"; Group [("G", [Leaf "features/g/b.feature"])]] =
    Ok [Leaf "features/a.md"; Group [("G", [Leaf "features/g/b.md"])]] ∧
  _rename_features_in_nav
    [Leaf "features/a.md"; Group [("G", [Leaf "features/g/b.md"])]] =
    Ok [Leaf "features/a.md"; Group [("G", [Leaf "features/g/b.md"])]].
Proof.
  assert (_rename_features_in_nav
            [Leaf "features/a.feature";
             Group [("G", [Leaf "features/g/b.feature"])]] =
          Ok [Leaf "features/a.md"; Group [("G", [Leaf "features/g/b.md"])]])
    as H by reflexivity.
  split; [exact H|]. exact (rename_twice _ _ H).
Defined.

Lemma search_reports_feature_leaves_witness :
  Forall single_key
    [Leaf "index.md"; Group [("G", [Leaf "features/g/b.feature"])]] ∧
  _get_feature_paths_in_nav
    [Leaf "index.md"; Group [("G", [Leaf "features/g/b.feature"])]] =
    Ok [Path.of_str "features/g/b.feature"].
Proof.
  assert (Forall single_key
            [Leaf "index.md"; Group [("G", [Leaf "features/g/b.feature"])]])
    as H by (repeat constructor).
  split; [exact H|]. exact (search_reports_feature_leaves _ H).
Defined.

(** ** The tree built from the files on disk *)

Section FeatureTree.

Lemma leaves_app (nav nav' : NavTree) : leaves (nav ++ nav') = leaves nav ++ leaves nav'.
Proof. unfold leaves. apply flat_map_app. Qed.

Lemma leaves_cons element (nav : NavTree) :
  leaves (element :: nav) = leaves_element element ++ leaves nav.
Proof. reflexivity. Qed.

Lemma leaves_element_cons k x (d : NavDict) :
  leaves_element (Group ((k, x) :: d)) = leaves x ++ leaves_element (Group d).
Proof. reflexivity. Qed.

Lemma leaves_dict_set name (d : NavDict) sub :
  dict_get name d = Some sub →
  ∃ pre post,
    leaves_element (Group d) = pre ++ leaves sub ++ post ∧
    ∀ v, leaves_element (Group (dict_set name v d)) = pre ++ leaves v ++ post.
Proof.
  unfold dict_get. induction d as [|[k x] d IH]; [done|].
  intros H. simpl in H. cbn [dict_set].
  destruct (String.eqb k name) eqn:Ek; simpl in H.
  - injection H as ->. exists [], (leaves_element (Group d)). split; [done|].
    intros v. by rewrite leaves_element_cons.
  - destruct (IH H) as (pre & post & E1 & E2).
    exists (leaves x ++ pre), post. split.
    + rewrite leaves_element_cons, E1. by rewrite <- List.app_assoc.
    + intros v. rewrite leaves_element_cons, E2. by rewrite <- List.app_assoc.
Qed.

Lemma leaves_set_group name (nav : NavTree) sub :
  find_group name nav = Some sub →
  ∃ pre post,
    leaves nav = pre ++ leaves sub ++ post ∧
    ∀ v, leaves (set_group name v nav) = pre ++ leaves v ++ post.
Proof.
  induction nav as [|[s|d] nav IH]; [done| |]; cbn [find_group set_group].
  - intros H. destruct (IH H) as (pre & post & E1 & E2).
    exists (s :: pre), post. split.
    + by rewrite leaves_cons, E1.
    + intros v. by rewrite leaves_cons, E2.
  - destruct (dict_get name d) as [x|] eqn:E.
    + intros [= ->]. destruct (leaves_dict_set _ _ _ E) as (pre & post & E1 & E2).
      exists pre, (post ++ leaves nav). split.
      * rewrite leaves_cons, E1. by rewrite <- !List.app_assoc.
      * intros v. rewrite leaves_cons, E2. by rewrite <- !List.app_assoc.
    + intros H. destruct (IH H) as (pre & post & E1 & E2).
      exists (leaves_element (Group d) ++ pre), post. split.
      * rewrite leaves_cons, E1. by rewrite <- !List.app_assoc.
      * intros v. rewrite leaves_cons, E2. by rewrite <- !List.app_assoc.
Qed.

Lemma add_feature_leaves parts leaf (tree : NavTree) :
  leaves (add_feature parts leaf tree) ≡ₚ leaf :: leaves tree.
Proof.
  revert tree. induction parts as [|part parts IH]; intros tree;
    cbn [add_feature].
  - rewrite leaves_app.
    change (leaves [Leaf leaf]) with [leaf].
    by rewrite <- Permutation_cons_append.
  - destruct (find_group part tree) as [sub|] eqn:E.
    + destruct (leaves_set_group _ _ _ E) as (pre & post & -> & ->).
      rewrite IH. symmetry.
      apply (Permutation_middle pre (leaves sub ++ post) leaf).
    + rewrite leaves_app, leaves_cons, leaves_element_cons.
      change (leaves_element (Group [])) with (@nil string).
      change (leaves []) with (@nil string).
      rewrite !List.app_nil_r, IH.
      change (leaves []) with (@nil string).
      by rewrite <- Permutation_cons_append.
Qed.

Lemma add_feature_unique parts leaf (tree : NavTree) :
  unique_groups tree → unique_groups (add_feature parts leaf tree).
Proof.
  revert tree. induction parts as [|part parts IH]; intros tree Ht; simpl.
  - by apply unique_groups_app_leaf.
  - destruct (find_group part tree) as [sub|] eqn:E.
    + apply unique_groups_set_group; [done|]. apply IH.
      by eapply unique_groups_find.
    + apply unique_groups_app_group; [done| |done]. apply IH.
      apply unique_groups_nil.
Qed.

Lemma build_feature_tree_fold (P : NavTree → Prop) :
  P [] → (∀ parts leaf tree, P tree → P (add_feature parts leaf tree)) →
  ∀ feature_paths, P (_build_feature_tree feature_paths).
Proof.
  intros Hnil Hadd feature_paths. unfold _build_feature_tree.
  revert Hnil. generalize ([] : NavTree).
  induction feature_paths as [|p l IH]; intros tree Ht; simpl; [done|].
  apply IH. by apply Hadd.
Qed.

(** X5: the tree built from the listing is a tree of the data model, with
    one key per mapping and one mapping per group name at every level, and
    its merge into any navigation returns. *)
Theorem feature_tree_well_formed (feature_paths : list Path.t) :
  Forall single_key (_build_feature_tree feature_paths) ∧
  unique_groups (_build_feature_tree feature_paths) ∧
  ∀ nav_tree, ∃ nav_tree',
    _merge_features_into_nav nav_tree (_build_feature_tree feature_paths) =
    Ok nav_tree'.
Proof.
  assert (Forall single_key (_build_feature_tree feature_paths)) as Hs.
  { apply (build_feature_tree_fold (Forall single_key)); [constructor|].
    intros. by apply add_feature_single. }
  split; [exact Hs|]. split.
  - apply (build_feature_tree_fold unique_groups); [apply unique_groups_nil|].
    intros. by apply add_feature_unique.
  - intros nav_tree. by apply merge_total.
Qed.

(** X6: the leaves of the tree built from the listing are the path strings
    of the listing, each as often as it is listed: no file is left out and
    none is added. *)
Theorem feature_tree_leaves (feature_paths : list Path.t) :
  leaves (_build_feature_tree feature_paths) ≡ₚ map Path.to_str feature_paths.
Proof.
  unfold _build_feature_tree.
  assert (∀ tree,
            leaves (fold_left
              (fun feature_tree feature_path =>
                 add_feature (drop 1 (Path.parts (Path.parent feature_path)))
                             (Path.to_str feature_path) feature_tree)
              feature_paths tree)
            ≡ₚ leaves tree ++ map Path.to_str feature_paths) as H.
  { induction feature_paths as [|p l IH]; intros tree; simpl.
    - by rewrite List.app_nil_r.
    - rewrite IH, add_feature_leaves. by rewrite <- Permutation_middle. }
  by rewrite H.
Qed.

End FeatureTree.

(** ** What the merge adds *)

Section MergeContents.

Implicit Types (nav : NavTree) (element : NavElement).

Lemma top_leaves_app nav nav' :
  top_leaves (nav ++ nav') = top_leaves nav ++ top_leaves nav'.
Proof. unfold top_leaves. apply flat_map_app. Qed.

Lemma top_leaves_set_group name v nav :
  top_leaves (set_group name v nav) = top_leaves nav.
Proof.
  induction nav as [|[s|d] nav IH]; simpl; [done| |].
  - by rewrite IH.
  - by destruct (dict_get name d).
Qed.

Lemma leaf_in_top_leaves s nav : leaf_in s nav = true ↔ s ∈ top_leaves nav.
Proof.
  induction nav as [|[s'|d] nav IH]; simpl.
  - split; [done|]. by intros ?%elem_of_nil.
  - rewrite orb_true_iff, IH, elem_of_cons, String.eqb_eq. intuition congruence.
  - by rewrite IH.
Qed.

Lemma merge_element_top_leaves element nav nav' :
  merge_element element nav = Ok nav' →
  top_leaves nav' =
  top_leaves nav ++
  match element with
  | Leaf s => if leaf_in s nav then [] else [s]
  | Group _ => []
  end.
Proof.
  destruct element as [s|[|[name sub] d]]; [| done |].
  - simpl. intros [= <-]. destruct (leaf_in s nav).
    + by rewrite List.app_nil_r.
    + by rewrite top_leaves_app.
  - rewrite merge_element_group, List.app_nil_r.
    destruct (find_group (display_name name) nav) as [sub_nav|].
    + intros (sub' & _ & [= <-])%bind_ok. apply top_leaves_set_group.
    + intros (sub' & _ & [= <-])%bind_ok.
      rewrite top_leaves_app. simpl. by rewrite List.app_nil_r.
Qed.

(** X7: the leaves of a level after the merge are those it had, in place,
    followed by the leaves of the source level that it did not have; a level
    without a repeated leaf stays without one. *)
Theorem merge_leaves_of_level (T1 T2 M : NavTree) :
  _merge_features_into_nav T1 T2 = Ok M →
  (∀ s, s ∈ top_leaves M ↔ s ∈ top_leaves T1 ∨ s ∈ top_leaves T2) ∧
  top_leaves T1 `prefix_of` top_leaves M ∧
  (NoDup (top_leaves T1) → NoDup (top_leaves M)).
Proof.
  unfold _merge_features_into_nav.
  revert T1. induction T2 as [|e T2 IH]; intros T1 Hm; simpl in Hm.
  - injection Hm as <-. split; [|done]. intros s. split; [by left|].
    intros [?|?%elem_of_nil]; done.
  - apply bind_ok in Hm as (nav1 & H1 & Hm).
    destruct (IH _ Hm) as (Hiff & Hpre & Hnd).
    pose proof (merge_element_top_leaves _ _ _ H1) as Htop.
    split; [|split].
    + intros s. rewrite Hiff, Htop, elem_of_app.
      destruct e as [s'|d]; simpl.
      * rewrite elem_of_cons. destruct (leaf_in s' T1) eqn:E.
        -- apply leaf_in_top_leaves in E. split; [|intuition (subst; auto)].
           intros [[?|?%elem_of_nil]|?]; intuition (subst; auto).
        -- rewrite list_elem_of_singleton. intuition (subst; auto).
      * split; [|intuition (subst; auto)]. intros [[?|?%elem_of_nil]|?]; intuition (subst; auto).
    + etrans; [|exact Hpre]. rewrite Htop. by apply prefix_app_r.
    + intros Hnd1. apply Hnd. rewrite Htop.
      destruct e as [s'|d]; simpl; [|by rewrite List.app_nil_r].
      destruct (leaf_in s' T1) eqn:E; [by rewrite List.app_nil_r|].
      apply NoDup_app. split; [done|]. split; [|apply NoDup_singleton].
      intros x Hx ->%list_elem_of_singleton.
      apply leaf_in_top_leaves in Hx. by rewrite Hx in E.
Qed.

Lemma find_group_names name nav v :
  find_group name nav = Some v → name ∈ group_names nav.
Proof.
  intros (d & Hd & Hk)%find_group_Some. unfold group_names.
  apply list_elem_of_In, in_flat_map. exists (Group d).
  split; [by apply list_elem_of_In|]. apply list_elem_of_In.
  apply (list_elem_of_fmap_2 fst) in Hk. exact Hk.
Qed.

Lemma merge_element_group_names element nav nav' :
  merge_element element nav = Ok nav' →
  group_names nav' =
  group_names nav ++
  match element with
  | Group ((name, _) :: _) =>
      match find_group (display_name name) nav with
      | Some _ => []
      | None => [display_name name]
      end
  | _ => []
  end.
Proof.
  destruct element as [s|[|[name sub] d]]; [| done |].
  - simpl. intros [= <-]. rewrite List.app_nil_r. destruct (leaf_in s nav); [done|].
    rewrite group_names_app. simpl. by rewrite List.app_nil_r.
  - rewrite merge_element_group.
    destruct (find_group (display_name name) nav) as [sub_nav|].
    + intros (sub' & _ & [= <-])%bind_ok.
      by rewrite group_names_set_group, List.app_nil_r.
    + intros (sub' & _ & [= <-])%bind_ok. by rewrite group_names_app.
Qed.

(** X8: the group names of a level after the merge are those it had, in
    place, and the display names of the first keys of the source groups:
    a directory is listed under its name with underscores turned into
    spaces and capitalised, whatever other keys a source dict holds. *)
Theorem merge_groups_of_level (T1 T2 M : NavTree) :
  _merge_features_into_nav T1 T2 = Ok M →
  (∀ g, g ∈ group_names M ↔ g ∈ group_names T1 ∨ g ∈ merged_names T2) ∧
  group_names T1 `prefix_of` group_names M.
Proof.
  unfold _merge_features_into_nav.
  revert T1. induction T2 as [|e T2 IH]; intros T1 Hm; simpl in Hm.
  - injection Hm as <-. split; [|done]. intros g. split; [by left|].
    intros [?|?%elem_of_nil]; done.
  - apply bind_ok in Hm as (nav1 & H1 & Hm).
    destruct (IH _ Hm) as (Hiff & Hpre).
    pose proof (merge_element_group_names _ _ _ H1) as Hnames.
    split.
    + intros g. rewrite Hiff, Hnames. unfold merged_names. cbn [flat_map].
      fold (merged_names T2). rewrite !elem_of_app.
      destruct e as [s|[|[name sub] d]].
      * split; [|intuition (subst; auto)]. intros [[?|?%elem_of_nil]|?]; intuition (subst; auto).
      * done.
      * destruct (find_group (display_name name) T1) as [v|] eqn:E.
        -- apply find_group_names in E. rewrite list_elem_of_singleton.
           split; [|intuition (subst; auto)]. intros [[?|?%elem_of_nil]|?]; intuition (subst; auto).
        -- intuition (subst; auto).
    + etrans; [|exact Hpre]. rewrite Hnames. by apply prefix_app_r.
Qed.

(** X9: the entry that [_ensure_features_entry] returns is the one held
    under the heading in the tree it leaves, and a second call adds
    nothing. *)
Theorem ensure_features_entry_held (nav_tree : NavTree) (heading : string) :
  find_group heading (_ensure_features_entry nav_tree heading).1 =
    Some (_ensure_features_entry nav_tree heading).2 ∧
  _ensure_features_entry (_ensure_features_entry nav_tree heading).1 heading =
    _ensure_features_entry nav_tree heading.
Proof.
  unfold _ensure_features_entry.
  destruct (find_group heading nav_tree) as [entry|] eqn:E; simpl.
  - by rewrite E.
  - assert (find_group heading (nav_tree ++ [Group [(heading, [])]]) = Some [])
      as H.
    { rewrite find_group_app, E. simpl. unfold dict_get. simpl.
      by rewrite String.eqb_refl. }
    by rewrite H.
Qed.

End MergeContents.

Lemma merge_leaves_of_level_witness :
  _merge_features_into_nav
    [Leaf "index.md"; Leaf "features/a.feature"]
    [Leaf "features/a.feature"; Leaf "features/b.feature"] =
    Ok [Leaf "index.md"; Leaf "features/a.feature"; Leaf "features/b.feature"] ∧
  NoDup (top_leaves
           [Leaf "index.md"; Leaf "features/a.feature"; Leaf "features/b.feature"]).
Proof.
  assert (_merge_features_into_nav
            [Leaf "index.md"; Leaf "features/a.feature"]
            [Leaf "features/a.feature"; Leaf "features/b.feature"] =
          Ok [Leaf "index.md"; Leaf "features/a.feature";
              Leaf "features/b.feature"]) as H by reflexivity.
  split; [exact H|].
  apply (proj2 (proj2 (merge_leaves_of_level _ _ _ H))).
  exact (bool_decide_unpack
           (NoDup (top_leaves [Leaf "index.md"; Leaf "features/a.feature"])) I).
Defined.

Lemma merge_groups_of_level_witness :
  _merge_features_into_nav
    [Group [("Api", [])]]
    [Group [("api", [Leaf "features/api/a.feature"])];
     Group [("user_guide", [Leaf "features/user_guide/b.feature"])]] =
    Ok [Group [("Api", [Leaf "features/api/a.feature"])];
        Group [("User guide", [Leaf "features/user_guide/b.feature"])]] ∧
  group_names [Group [("Api", [])]] `prefix_of`
  group_names [Group [("Api", [Leaf "features/api/a.feature"])];
               Group [("User guide", [Leaf "features/user_guide/b.feature"])]].
Proof.
  assert (_merge_features_into_nav
            [Group [("Api", [])]]
            [Group [("api", [Leaf "features/api/a.feature"])];
             Group [("user_guide", [Leaf "features/user_guide/b.feature"])]] =
          Ok [Group [("Api", [Leaf "features/api/a.feature"])];
              Group [("User guide", [Leaf "features/user_guide/b.feature"])]])
    as H by reflexivity.
  split; [exact H|]. exact (proj2 (merge_groups_of_level _ _ _ H)).
Defined.

(** ** Steps *)

Section StepFacts.

Import StrFacts.

Lemma remove_char_app c s t :
  remove_char c (s +:+ t) = remove_char c s +:+ remove_char c t.
Proof.
  induction s as [|a s IH]; [done|]. rewrite app_cons. simpl.
  destruct (Ascii.eqb a c); [done|]. by rewrite app_cons, IH.
Qed.

Lemma sub_only_backticks s :
  remove_char "`" (sub_outside s) = remove_char "`" s ∧
  ∀ group, remove_char "`" (sub_inside s group) =
           remove_char "`" (String dquote (group +:+ s)).
Proof.
  induction s as [|c s [IHo IHi]]; split.
  - done.
  - intros group. simpl. by rewrite app_nil_r.
  - simpl. destruct (Ascii.eqb_spec c dquote) as [->|Hc].
    + by rewrite IHi.
    + simpl. by rewrite IHo.
  - intros group. simpl. destruct (Ascii.eqb_spec c dquote) as [->|Hc].
    + cbn [remove_char Ascii.eqb Bool.eqb]. f_equal.
      rewrite !remove_char_app. cbn [remove_char Ascii.eqb Bool.eqb].
      rewrite app_nil_l. cbn [remove_char Ascii.eqb Bool.eqb].
      by rewrite IHo, app_nil_l.
    + rewrite IHi. cbn [remove_char Ascii.eqb Bool.eqb]. f_equal.
      by rewrite (app_assoc group (String c "") s).
Qed.

Lemma sub_counts_quotes s :
  count dquote (sub_outside s) = count dquote s ∧
  ∀ group, count dquote (sub_inside s group) =
           S (count dquote group + count dquote s).
Proof.
  induction s as [|c s [IHo IHi]]; split.
  - done.
  - intros group. cbn [sub_inside count]. rewrite Ascii.eqb_refl. simpl. lia.
  - cbn [sub_outside count]. destruct (Ascii.eqb_spec c dquote) as [->|Hc].
    + rewrite IHi. simpl. lia.
    + cbn [count]. destruct (Ascii.eqb_spec c dquote); [done|]. by rewrite IHo.
  - intros group. cbn [sub_inside count].
    destruct (Ascii.eqb_spec c dquote) as [->|Hc].
    + cbn [count]. rewrite !count_app. cbn [count].
      rewrite !Ascii.eqb_refl, IHo.
      change (Ascii.eqb "`" dquote) with false. simpl. lia.
    + rewrite IHi, count_app. cbn [count].
      destruct (Ascii.eqb_spec c dquote); [done|]. simpl. lia.
Qed.

(** X10: the substitution of [format_step] adds backticks and nothing
    else: the rewritten name without its backticks is the name without its
    backticks, it holds as many double quotes as the name, and a name
    without double quote is not changed. *)
Theorem step_name_only_gains_backticks (name : string) :
  remove_char "`" (re_sub_quoted name) = remove_char "`" name ∧
  count dquote (re_sub_quoted name) = count dquote name ∧
  (count dquote name = 0 → re_sub_quoted name = name).
Proof.
  unfold re_sub_quoted. split; [apply sub_only_backticks|].
  split; [apply sub_counts_quotes|].
  intros H. apply sub_outside_rest. lia.
Qed.

Variable regexes : list (Pattern * string).

Lemma guess_no_match name :
  Forall (fun pl => fst pl name = false) regexes →
  _guess_code_language regexes name = "".
Proof.
  unfold _guess_code_language. induction 1 as [|[p l] r Hp _ IH]; [done|].
  simpl in *. by rewrite Hp.
Qed.

End StepFacts.

Lemma step_name_only_gains_backticks_witness :
  count dquote "Given a step" = 0 ∧ re_sub_quoted "Given a step" = "Given a step".
Proof.
  split; [reflexivity|].
  exact (proj2 (proj2 (step_name_only_gains_backticks "Given a step")) eq_refl).
Defined.

Lemma guess_first_match before pattern language after name :
  Forall (fun pl => fst pl name = false) before →
  pattern name = true →
  _guess_code_language (before ++ (pattern, language) :: after) name = language.
Proof.
  unfold _guess_code_language. induction 1 as [|[p l] r Hp _ IH]; intros Hm.
  - simpl. by rewrite Hm.
  - simpl in *. rewrite Hp. by apply IH.
Qed.

(** X11: the code block of a step is fenced with the language of the first
    configured pattern that matches the name as it is written in the
    feature file, and with no language when none matches; a step whose
    text is missing or empty is written on its one line. *)
Theorem step_block_language (keyword name text : string)
    (before after : list (Pattern * string)) (pattern : Pattern)
    (language : string) :
  truthy text = true →
  Forall (fun pl => fst pl name = false) before →
  (pattern name = true →
   format_step (before ++ (pattern, language) :: after)
     (mkStep keyword name (Some text)) =
   "**" +:+ keyword +:+ "** " +:+ re_sub_quoted name +:+ "  " +:+ nl +:+
   nl +:+ "```" +:+ language +:+ nl +:+ text +:+ nl +:+ "```" +:+ nl) ∧
  format_step before (mkStep keyword name (Some text)) =
   "**" +:+ keyword +:+ "** " +:+ re_sub_quoted name +:+ "  " +:+ nl +:+
   nl +:+ "```" +:+ nl +:+ text +:+ nl +:+ "```" +:+ nl ∧
  format_step before (mkStep keyword name None) =
   "**" +:+ keyword +:+ "** " +:+ re_sub_quoted name +:+ "  " +:+ nl ∧
  format_step before (mkStep keyword name (Some "")) =
   "**" +:+ keyword +:+ "** " +:+ re_sub_quoted name +:+ "  " +:+ nl.
Proof.
  intros Ht Hb. unfold format_step. cbn [step_text step_name step_keyword].
  rewrite Ht, (guess_no_match before name Hb). cbn [truthy].
  split; [|split; [done|split]].
  - intros Hm.
    pose proof (guess_first_match before pattern language after name Hb Hm) as E.
    unfold Pattern in *. by rewrite E.
  - by rewrite StrFacts.app_nil_r.
  - by rewrite StrFacts.app_nil_r.
Qed.

Lemma step_block_language_witness :
  format_step
    [((fun s => startswith s "the JSON"), "json");
     ((fun s => startswith s "a request"), "http")]
    (mkStep "Given" "a request with body" (Some "GET /")) =
  "**Given** a request with body  " +:+ nl +:+
  nl +:+ "```http" +:+ nl +:+ "GET /" +:+ nl +:+ "```" +:+ nl.
Proof.
  refine (proj1 (step_block_language "Given" "a request with body" "GET /"
                   [((fun s => startswith s "the JSON"), "json")] []
                   (fun s => startswith s "a request") "http"
                   eq_refl _) eq_refl).
  repeat constructor.
Defined.

(** ** The nested run *)

(** X12: [_run_behave] never raises [SystemExit]: an exit of the nested run
    is turned into a return, with one warning in the log when its code is
    true (an integer other than 0, a message that is not empty) and none
    otherwise; whatever else the nested run raises is raised on, and what
    the nested run rendered is kept. *)
Theorem run_behave_swallows_exit
    (run_module : World → World * option exn) (self : BehavePlugin) (w : World) :
  let nested := run_module (set_argv behave_argv
                  (set_formatter (_step_highlight_regexes self) w)) in
  (∀ code, (_run_behave run_module self w).2 ≠ Some (SystemExit code)) ∧
  (_run_behave run_module self w).2 =
    match nested.2 with
    | Some (SystemExit _) => None
    | raised => raised
    end ∧
  log (_run_behave run_module self w).1 =
    log nested.1 ++
    match nested.2 with
    | Some (SystemExit code) =>
        if code_truthy code
        then ["Behave did not complete successfully. Some features may not have been processed."]
        else []
    | _ => []
    end ∧
  rendered_features (_run_behave run_module self w).1 = rendered_features nested.1.
Proof.
  unfold _run_behave. cbn zeta.
  destruct (run_module _) as [w' [[| | |code|]|]]; simpl;
    rewrite ?List.app_nil_r; try done.
  destruct (code_truthy code); simpl; by rewrite ?List.app_nil_r.
Qed.

(** ** The files hook *)

Section FilesHook.

Variable run_module : World → World * option exn.

Lemma log_warnings_frame {A} (msg : A → string) (l : list A) (w : World) :
  argv (fold_left (fun w x => log_warning (msg x) w) l w) = argv w ∧
  rendered_features (fold_left (fun w x => log_warning (msg x) w) l w) =
    rendered_features w.
Proof. revert w. induction l as [|x l IH]; intros w; [done|]. simpl. by rewrite !(proj1 (IH _)), !(proj2 (IH _)). Qed.

Lemma run_behave_frame (self : BehavePlugin) (w : World) :
  argv (_run_behave run_module self w).1 = argv w ∧
  rendered_features (_run_behave run_module self w).1 =
    rendered_features
      (run_module (set_argv behave_argv
         (set_formatter (_step_highlight_regexes self) w))).1.
Proof.
  unfold _run_behave.
  destruct (run_module _) as [w' [[| | |code|]|]]; simpl; try done.
  by destruct (code_truthy code).
Qed.

Lemma build_files_paths cwd site_dir (paths : list Path.t) files handled :
  _build_feature_files cwd site_dir paths = Ok files →
  mapM (fun path => md ← Path.with_suffix path ".md"; Ok (Path.to_str md)) paths
    = Ok handled →
  map file_path files = handled.
Proof.
  unfold _build_feature_files. revert files handled.
  induction paths as [|p l IH]; intros files handled; simpl.
  - by intros [= <-] [= <-].
  - destruct (Path.with_suffix p ".md") as [md|]; [|done]. simpl.
    intros (fs & Hfs & [= <-])%bind_ok (hs & Hhs & [= <-])%bind_ok. simpl.
    f_equal. by apply IH.
Qed.

(** What a returning [on_files] has gone through. *)
Lemma on_files_inv self cwd site_dir all_feature_paths files nav_tree w out :
  on_files run_module self cwd site_dir all_feature_paths files nav_tree w = Ok out →
  ∃ feature_paths feature_files handled,
    (_run_behave run_module self w).2 = None ∧
    _build_feature_files cwd site_dir feature_paths = Ok feature_files ∧
    mapM (fun path => md ← Path.with_suffix path ".md"; Ok (Path.to_str md))
         feature_paths = Ok handled ∧
    (populate (config self) = true → feature_paths = all_feature_paths) ∧
    (populate (config self) = false →
     _get_feature_paths_in_nav
       (_ensure_features_entry nav_tree (nav_heading (config self))).2
     = Ok feature_paths) ∧
    out_files out = files ++ feature_files ∧
    out_self out = mkPlugin (config self) (_step_highlight_regexes self)
                            (list_to_set handled) ∧
    argv (out_world out) = argv w ∧
    rendered_features (out_world out) =
      rendered_features
        (run_module (set_argv behave_argv
           (set_formatter (_step_highlight_regexes self) w))).1.
Proof.
  unfold on_files. pose proof (run_behave_frame self w) as [Hargv Hrf].
  destruct (_run_behave run_module self w) as [w1 [e|]]; [done|]. simpl in *.
  destruct (_ensure_features_entry nav_tree (nav_heading (config self)))
    as [nav1 entry].
  intros (features_rel & _ & Hrest)%bind_ok.
  apply bind_ok in Hrest as ([[feature_paths entry1] w2] & Hbranch & Hrest).
  apply bind_ok in Hrest as (entry2 & Hproc & Hrest).
  apply bind_ok in Hrest as (outside & Hout & Hrest).
  apply bind_ok in Hrest as (feature_files & Hfiles & Hrest).
  apply bind_ok in Hrest as (handled & Hhandled & [= <-]).
  exists feature_paths, feature_files, handled. simpl.
  assert (argv w2 = argv w1 ∧ rendered_features w2 = rendered_features w1 ∧
          (populate (config self) = true → feature_paths = all_feature_paths) ∧
          (populate (config self) = false →
           _get_feature_paths_in_nav entry = Ok feature_paths))
    as (Ha2 & Hr2 & Hpop & Hnopop).
  { destruct (populate (config self)).
    - apply bind_ok in Hbranch as (entry' & _ & [= <- <- <-]). done.
    - apply bind_ok in Hbranch as (paths & Hpaths & [= <- <- <-]).
      destruct (warn_missing (config self)).
      + destruct (log_warnings_frame
                    (fun missing : Path.t =>
                       "Feature file '" +:+ Path.to_str missing +:+
                       "' is present on disk, but is not included in the 'nav' configuration.")
                    (List.filter (fun p => negb (bool_decide (p ∈ paths)))
                                 all_feature_paths) w1) as [-> ->].
        done.
      + done. }
  repeat (split; [done|]).
  destruct outside; simpl; by rewrite ?Ha2, ?Hr2, ?Hargv, ?Hrf.
Qed.

(** X13: a returning [on_files] leaves the argument vector and the
    configuration of the plugin as they were, keeps every file it was given
    in front of the files it adds, and renders nothing itself: the rendered
    texts are those the nested run left. *)
Theorem on_files_frame self cwd site_dir all_feature_paths files nav_tree w out :
  on_files run_module self cwd site_dir all_feature_paths files nav_tree w = Ok out →
  argv (out_world out) = argv w ∧
  config (out_self out) = config self ∧
  files `prefix_of` out_files out ∧
  rendered_features (out_world out) =
    rendered_features
      (run_module (set_argv behave_argv
         (set_formatter (_step_highlight_regexes self) w))).1.
Proof.
  intros (fp & ff & h & _ & _ & _ & _ & _ & Hf & Hs & Ha & Hr)%on_files_inv.
  rewrite Hf, Hs. split; [done|]. split; [done|]. split; [|done].
  by apply prefix_app_r.
Qed.

(** X14: the handled set that [on_files] leaves holds exactly the paths of
    the files it has added: a page is taken for a feature when, and only
    when, its file is one of these. *)
Theorem handled_are_the_added_files
    self cwd site_dir all_feature_paths files nav_tree w out :
  on_files run_module self cwd site_dir all_feature_paths files nav_tree w = Ok out →
  ∃ added,
    out_files out = files ++ added ∧
    length added =
      length (if populate (config self) then all_feature_paths
              else match _get_feature_paths_in_nav
                           (_ensure_features_entry nav_tree
                              (nav_heading (config self))).2 with
                   | Ok paths => paths
                   | Raise _ => []
                   end) ∧
    ∀ src_uri, src_uri ∈ _handled_feature_files (out_self out) ↔
               src_uri ∈ map file_path added.
Proof.
  intros (fp & ff & h & _ & Hff & Hh & Hpop & Hnopop & Hf & Hs & _)%on_files_inv.
  exists ff. split; [done|]. split.
  - assert (length ff = length fp) as ->.
    { clear -Hff. unfold _build_feature_files in Hff. revert ff Hff.
      induction fp as [|p l IH]; intros ff; simpl.
      - by intros [= <-].
      - destruct (Path.with_suffix p ".md"); [|done]. simpl.
        intros (fs & Hfs & [= <-])%bind_ok. simpl. f_equal. by apply IH. }
    destruct (populate (config self)).
    + by rewrite Hpop.
    + by rewrite Hnopop.
  - intros src_uri. rewrite Hs. cbn [_handled_feature_files].
    rewrite elem_of_list_to_set. by rewrite (build_files_paths _ _ _ _ _ Hff Hh).
Qed.

End FilesHook.

Lemma on_files_frame_witness :
  on_files (fun w => (log_warning "nested" w, Some (SystemExit (CodeInt 0))))
    (mkPlugin (mkConfig "/docs/features" "Features" true true) [] ∅) "/docs" "site"
    [Path.of_str "features/a.feature"] [mkFile "index.md" "/docs" "site" "index.html"]
    [] (mkWorld ["mkdocs"; "serve"] None ∅ []) =
  Ok (mkOnFiles
        [Group [("Features", [Leaf "features/a.md"])]]
        (mkPlugin (mkConfig "/docs/features" "Features" true true) [] (list_to_set ["features/a.md"]))
        [mkFile "index.md" "/docs" "site" "index.html";
         mkFile "features/a.md" "/docs" "site" "features/a/index.html"]
        (mkWorld ["mkdocs"; "serve"] (Some []) ∅ ["nested"])) ∧
  argv (mkWorld ["mkdocs"; "serve"] (Some []) ∅ ["nested"]) = ["mkdocs"; "serve"].
Proof.
  assert (on_files
            (fun w => (log_warning "nested" w, Some (SystemExit (CodeInt 0))))
            (mkPlugin (mkConfig "/docs/features" "Features" true true) [] ∅) "/docs" "site"
            [Path.of_str "features/a.feature"]
            [mkFile "index.md" "/docs" "site" "index.html"]
            [] (mkWorld ["mkdocs"; "serve"] None ∅ []) =
          Ok (mkOnFiles
                [Group [("Features", [Leaf "features/a.md"])]]
                (mkPlugin (mkConfig "/docs/features" "Features" true true) []
                          (list_to_set ["features/a.md"]))
                [mkFile "index.md" "/docs" "site" "index.html";
                 mkFile "features/a.md" "/docs" "site" "features/a/index.html"]
                (mkWorld ["mkdocs"; "serve"] (Some []) ∅ ["nested"])))
    as H by reflexivity.
  split; [exact H|].
  exact (proj1 (on_files_frame _ _ _ _ _ _ _ _ _ H)).
Defined.

Lemma handled_are_the_added_files_witness :
  on_files (fun w => (w, None))
    (mkPlugin (mkConfig "/docs/features" "Features" true true) [] ∅) "/docs" "site"
    [Path.of_str "features/a.feature"] [] []
    (mkWorld ["mkdocs"; "build"] None ∅ []) =
  Ok (mkOnFiles
        [Group [("Features", [Leaf "features/a.md"])]]
        (mkPlugin (mkConfig "/docs/features" "Features" true true) [] (list_to_set ["features/a.md"]))
        [mkFile "features/a.md" "/docs" "site" "features/a/index.html"]
        (mkWorld ["mkdocs"; "build"] (Some []) ∅ [])) ∧
  ∃ added,
    [mkFile "features/a.md" "/docs" "site" "features/a/index.html"] = [] ++ added ∧
    ∀ src_uri,
      src_uri ∈ (list_to_set ["features/a.md"] : gset string) ↔
      src_uri ∈ map file_path added.
Proof.
  assert (on_files (fun w => (w, None))
            (mkPlugin (mkConfig "/docs/features" "Features" true true) [] ∅) "/docs" "site"
            [Path.of_str "features/a.feature"] [] []
            (mkWorld ["mkdocs"; "build"] None ∅ []) =
          Ok (mkOnFiles
                [Group [("Features", [Leaf "features/a.md"])]]
                (mkPlugin (mkConfig "/docs/features" "Features" true true) []
                          (list_to_set ["features/a.md"]))
                [mkFile "features/a.md" "/docs" "site" "features/a/index.html"]
                (mkWorld ["mkdocs"; "build"] (Some []) ∅ [])))
    as H by reflexivity.
  split; [exact H|].
  destruct (handled_are_the_added_files _ _ _ _ _ _ _ _ _ H)
    as (added & Hf & _ & Hh).
  exists added. split; [exact Hf|exact Hh].
Defined.

(** ** From the rendered text to the page *)

Section Serving.

Import Path StrFacts PathFacts.


(** X15: the text that the formatter stored under the path of a feature
    file, as [uri] was given it, is the source of the page of that file:
    the document path that [on_files] handles leads back to the path of the
    feature file whenever the name of the file is more than the suffix. *)
Theorem rendered_feature_is_served
    (regexes : list (Pattern * string)) (self : BehavePlugin) (w : World)
    (rendered : gmap string string) (f : Feature) (p md : Path.t)
    (parts : list string) (x : string) :
  valid_path p →
  tail p = parts ++ [x +:+ ".feature"] →
  x ≠ "" →
  with_suffix p ".md" = Ok md →
  to_str md ∈ _handled_feature_files self →
  rendered_features w = render_file regexes rendered (to_str p) f →
  on_page_read_source self w (to_str md) =
  Ok (Some (uri (to_str p) +:+ feature regexes f)).
Proof.
  intros Hv Htail Hx Hmd Hin Hrf. unfold on_page_read_source.
  rewrite bool_decide_eq_true_2 by done.
  destruct (with_suffix_valid p "md" md Hv) as [Hvmd _]; [done..|].
  rewrite (of_to_str md Hvmd).
  rewrite (with_suffix_named p parts x "feature" ".md") in Hmd by done.
  injection Hmd as <-.
  rewrite (with_suffix_named _ parts x "md" ".feature") by done. simpl.
  replace {| root := root p; tail := parts ++ [x +:+ ".feature"] |} with p
    by (destruct p; simpl in *; by rewrite Htail).
  rewrite Hrf. unfold render_file. by rewrite lookup_insert_eq.
Qed.

(** X16: for a feature file whose name is the suffix alone the way back
    from the document path ends at another path, with the suffix twice:
    unless something is stored under that path the page raises [KeyError],
    whatever is stored under the path of the file. *)
Theorem suffix_only_name_is_not_served
    (self : BehavePlugin) (w : World) (p md : Path.t) (parts : list string) :
  valid_path p →
  tail p = parts ++ [".feature"] →
  with_suffix p ".md" = Ok md →
  to_str md ∈ _handled_feature_files self →
  to_str (mk (root p) (parts ++ [".feature.feature"])) ≠ to_str p ∧
  (rendered_features w !! to_str (mk (root p) (parts ++ [".feature.feature"]))
     = None →
   on_page_read_source self w (to_str md) =
   Raise (KeyError (to_str (mk (root p) (parts ++ [".feature.feature"]))))).
Proof.
  intros Hv Htail Hmd Hin.
  assert (valid_path (mk (root p) (parts ++ [".feature.feature"]))) as Hv2.
  { destruct Hv as [Hr Ht]. split; [done|]. cbn [tail]. rewrite Htail in Ht.
    apply Forall_app in Ht as [Ht _]. apply Forall_app. split; [done|].
    by repeat constructor. }
  split.
  - intros E. apply (f_equal of_str) in E.
    rewrite (of_to_str _ Hv2), (of_to_str _ Hv) in E.
    apply (f_equal tail) in E. rewrite Htail in E. cbn [tail] in E.
    by apply app_inv_head in E.
  - intros Hnone. unfold on_page_read_source.
    rewrite bool_decide_eq_true_2 by done.
    destruct (with_suffix_valid p "md" md Hv) as [Hvmd _]; [done..|].
    rewrite (of_to_str md Hvmd).
    assert (md = mk (root p) (parts ++ [".feature.md"])) as ->.
    { unfold with_suffix in Hmd.
      rewrite (name_last p parts "" "feature" Htail) in Hmd.
      rewrite (suffix_hidden p parts "" "feature" Htail) in Hmd by done.
      cbn [truthy negb] in Hmd. rewrite Htail, removelast_last in Hmd.
      by injection Hmd as <-. }
    rewrite (with_suffix_named _ parts ".feature" "md" ".feature") by done.
    change (".feature" +:+ ".feature") with ".feature.feature".
    cbn [mbind result_bind root]. by rewrite Hnone.
Qed.

Lemma find_paths_feature (nav : NavTree) paths :
  find nav = Ok paths →
  Forall (fun p => ∃ s, endswith s ".feature" = true ∧ p = of_str s) paths.
Proof.
  assert (∀ element paths, find_element element = Ok paths →
            Forall (fun p => ∃ s, endswith s ".feature" = true ∧ p = of_str s)
                   paths) as Helem.
  { intros element. induction element as [s|d IH] using NavElement_ind;
      intros ps.
    - simpl. destruct (endswith s ".feature") eqn:E; intros [= <-].
      + constructor; [by exists s|constructor].
      + constructor.
    - destruct d as [|[k v] d]; [done|].
      apply Forall_cons in IH as [IH _]. simpl in IH.
      rewrite find_element_group. revert ps.
      induction IH as [|e v He _ IHv]; intros ps; simpl.
      + intros [= <-]. constructor.
      + intros (a & Ha & Hr)%bind_ok. apply bind_ok in Hr as (b & Hb & [= <-]).
        apply Forall_app. split; [by apply He|by apply IHv]. }
  revert paths. induction nav as [|e nav IH]; intros paths; simpl.
  - intros [= <-]. constructor.
  - intros (a & Ha & Hr)%bind_ok. apply bind_ok in Hr as (b & Hb & [= <-]).
    apply Forall_app. split; [by eapply Helem|by apply IH].
Qed.

Lemma mapM_ok {A B} (f : A → result B) (P : B → Prop) (l : list A) :
  Forall (fun a => ∃ b, f a = Ok b ∧ P b) l →
  ∃ bs, mapM f l = Ok bs ∧ length bs = length l ∧ Forall P bs.
Proof.
  induction 1 as [|a l (b & Hb & HP) _ (bs & Hbs & Hlen & HPs)].
  - exists []. by repeat split.
  - exists (b :: bs). simpl. rewrite Hb. simpl. rewrite Hbs. simpl.
    split; [done|]. split; [by rewrite Hlen|by constructor].
Qed.

(** X17: for the paths that the search reports the virtual files are built
    without a raise, one for each path, each with a path that ends with the
    document suffix: in the mode that does not populate, [on_files] cannot
    fail on a path it has found. *)
Theorem files_of_found_paths (cwd site_dir : string) (nav_tree : NavTree) paths :
  _get_feature_paths_in_nav nav_tree = Ok paths →
  ∃ feature_files,
    _build_feature_files cwd site_dir paths = Ok feature_files ∧
    length feature_files = length paths ∧
    Forall (fun file => endswith (file_path file) ".md" = true) feature_files.
Proof.
  unfold _get_feature_paths_in_nav, _build_feature_files.
  intros Hall%find_paths_feature. apply mapM_ok.
  eapply Forall_impl; [exact Hall|]. intros p (s & Hs & ->).
  destruct (with_suffix_feature_leaf s Hs) as (p' & -> & _ & Hend & _).
  eexists. split; [done|]. exact Hend.
Qed.

End Serving.

Lemma rendered_feature_is_served_witness :
  on_page_read_source
    (mkPlugin (mkConfig "/docs/features" "Features" true true) [] {["features/a.md"]})
    (mkWorld [] None
       (render_file [] ∅ "features/a.feature" (mkFeature "A" [] [] None [])) [])
    "features/a.md" =
  Ok (Some (uri "features/a.feature" +:+ feature [] (mkFeature "A" [] [] None []))).
Proof.
  refine (rendered_feature_is_served []
            (mkPlugin (mkConfig "/docs/features" "Features" true true) [] {["features/a.md"]})
            (mkWorld [] None
               (render_file [] ∅ "features/a.feature"
                  (mkFeature "A" [] [] None [])) [])
            ∅ (mkFeature "A" [] [] None [])
            (Path.mk "" ["features"; "a.feature"])
            (Path.mk "" ["features"; "a.md"])
            ["features"] "a" _ eq_refl _ eq_refl _ _).
  - split; [by left|]. repeat constructor; done.
  - done.
  - cbn [_handled_feature_files]. apply elem_of_singleton_2. reflexivity.
  - reflexivity.
Defined.

Lemma suffix_only_name_is_not_served_witness :
  on_page_read_source
    (mkPlugin (mkConfig "/docs/features" "Features" true true) [] {["features/.feature.md"]})
    (mkWorld [] None {["features/.feature" := "# Hidden"]} [])
    "features/.feature.md" =
  Raise (KeyError "features/.feature.feature").
Proof.
  refine (proj2 (suffix_only_name_is_not_served
            (mkPlugin (mkConfig "/docs/features" "Features" true true) []
                      {["features/.feature.md"]})
            (mkWorld [] None {["features/.feature" := "# Hidden"]} [])
            (Path.mk "" ["features"; ".feature"])
            (Path.mk "" ["features"; ".feature.md"])
            ["features"] _ eq_refl eq_refl _) _).
  - split; [by left|]. repeat constructor; done.
  - cbn [_handled_feature_files]. apply elem_of_singleton_2. reflexivity.
  - reflexivity.
Defined.

Lemma files_of_found_paths_witness :
  _get_feature_paths_in_nav [Leaf "features/a.feature"; Leaf "index.md"] =
    Ok [Path.of_str "features/a.feature"] ∧
  ∃ feature_files,
    _build_feature_files "/docs" "site" [Path.of_str "features/a.feature"] =
      Ok feature_files ∧
    length feature_files = 1.
Proof.
  assert (_get_feature_paths_in_nav [Leaf "features/a.feature"; Leaf "index.md"] =
          Ok [Path.of_str "features/a.feature"]) as H by reflexivity.
  split; [exact H|].
  destruct (files_of_found_paths "/docs" "site" _ _ H) as (ff & Hff & Hlen & _).
  exists ff. split; [exact Hff|exact Hlen].
Defined.

(** ** When the files hook returns *)

Section FilesHookReturns.

Import Path StrFacts PathFacts.

Variable run_module : World → World * option exn.








End FilesHookReturns.


(** ** What the files hook does to the navigation *)

Section FilesHookNav.

Variable run_module : World → World * option exn.

Lemma on_files_nav_inv self cwd site_dir all_feature_paths files nav_tree w out :
  on_files run_module self cwd site_dir all_feature_paths files nav_tree w = Ok out →
  ∃ entry1 entry2,
    process entry1 = Ok entry2 ∧
    out_nav out =
      set_group (nav_heading (config self)) entry2
        (_ensure_features_entry nav_tree (nav_heading (config self))).1.
Proof.
  unfold on_files.
  destruct (_run_behave run_module self w) as [w1 [e|]]; [done|].
  destruct (_ensure_features_entry nav_tree (nav_heading (config self)))
    as [nav1 entry].
  intros (features_rel & _ & Hrest)%bind_ok.
  apply bind_ok in Hrest as ([[feature_paths entry1] w2] & Hbranch & Hrest).
  apply bind_ok in Hrest as (entry2 & Hproc & Hrest).
  apply bind_ok in Hrest as (outside & Hout & Hrest).
  apply bind_ok in Hrest as (feature_files & Hfiles & Hrest).
  apply bind_ok in Hrest as (handled & Hhandled & [= <-]).
  by exists entry1, entry2.
Qed.

(** X19: a returning [on_files] changes the navigation in the entry of the
    heading and nowhere else: the entries of the top level keep their
    places and their keys, the heading comes last when it was missing, and
    the entry held under it has no feature path left for the search and is
    not changed by another rewrite. *)
Theorem on_files_touches_heading_only
    self cwd site_dir all_feature_paths files (nav_tree : NavTree) w out :
  on_files run_module self cwd site_dir all_feature_paths files nav_tree w = Ok out →
  ∃ features_entry,
    find_group (nav_heading (config self)) (out_nav out) = Some features_entry ∧
    out_nav out =
      set_group (nav_heading (config self)) features_entry
        (_ensure_features_entry nav_tree (nav_heading (config self))).1 ∧
    map entry_shape nav_tree `prefix_of` map entry_shape (out_nav out) ∧
    _get_feature_paths_in_nav features_entry = Ok [] ∧
    _rename_features_in_nav features_entry = Ok features_entry.
Proof.
  intros (entry1 & entry2 & Hproc & ->)%on_files_nav_inv.
  exists entry2. split; [|split; [done|split]].
  - apply (find_set_group_eq _ _ _
             (_ensure_features_entry nav_tree (nav_heading (config self))).2).
    unfold _ensure_features_entry.
    destruct (find_group (nav_heading (config self)) nav_tree) as [e|] eqn:E;
      simpl; [exact E|].
    rewrite find_group_app, E. simpl. unfold dict_get. simpl.
    by rewrite String.eqb_refl.
  - rewrite shape_set_group. unfold _ensure_features_entry.
    destruct (find_group (nav_heading (config self)) nav_tree); simpl; [done|].
    rewrite map_app. by apply prefix_app_r.
  - by apply process_settled in Hproc.
Qed.

End FilesHookNav.

Lemma on_files_touches_heading_only_witness :
  on_files (fun w => (w, None))
    (mkPlugin (mkConfig "/docs/features" "Features" true true) [] ∅) "/docs" "site"
    [Path.of_str "features/a.feature"] []
    [Leaf "index.md"; Group [("About", [Leaf "about.md"])]]
    (mkWorld ["mkdocs"; "build"] None ∅ []) =
  Ok (mkOnFiles
        [Leaf "index.md"; Group [("About", [Leaf "about.md"])];
         Group [("Features", [Leaf "features/a.md"])]]
        (mkPlugin (mkConfig "/docs/features" "Features" true true) [] (list_to_set ["features/a.md"]))
        [mkFile "features/a.md" "/docs" "site" "features/a/index.html"]
        (mkWorld ["mkdocs"; "build"] (Some []) ∅ [])) ∧
  ∃ features_entry,
    find_group "Features"
      [Leaf "index.md"; Group [("About", [Leaf "about.md"])];
       Group [("Features", [Leaf "features/a.md"])]] = Some features_entry ∧
    _get_feature_paths_in_nav features_entry = Ok [].
Proof.
  assert (on_files (fun w => (w, None))
            (mkPlugin (mkConfig "/docs/features" "Features" true true) [] ∅) "/docs" "site"
            [Path.of_str "features/a.feature"] []
            [Leaf "index.md"; Group [("About", [Leaf "about.md"])]]
            (mkWorld ["mkdocs"; "build"] None ∅ []) =
          Ok (mkOnFiles
                [Leaf "index.md"; Group [("About", [Leaf "about.md"])];
                 Group [("Features", [Leaf "features/a.md"])]]
                (mkPlugin (mkConfig "/docs/features" "Features" true true) []
                          (list_to_set ["features/a.md"]))
                [mkFile "features/a.md" "/docs" "site" "features/a/index.html"]
                (mkWorld ["mkdocs"; "build"] (Some []) ∅ [])))
    as H by reflexivity.
  split; [exact H|].
  destruct (on_files_touches_heading_only _ _ _ _ _ _ _ _ _ H)
    as (entry & Hfind & _ & _ & Hsearch & _).
  exists entry. split; [exact Hfind|exact Hsearch].
Defined.

(** ** The virtual file of a feature *)

Section VirtualFile.

Import Path StrFacts PathFacts.

Lemma join_snoc_eq sep (l : list string) x :
  l ≠ [] → join sep (l ++ [x]) = join sep l +:+ sep +:+ x.
Proof.
  induction l as [|y l IH]; [done|]. intros _.
  destruct l as [|z l]; [done|].
  change (join sep ((y :: z :: l) ++ [x]))
    with (y +:+ sep +:+ join sep ((z :: l) ++ [x])).
  change (join sep (y :: z :: l)) with (y +:+ sep +:+ join sep (z :: l)).
  rewrite IH by done. by rewrite !app_assoc.
Qed.

Lemma join_last_app sep (l : list string) x s :
  join sep (l ++ [x +:+ s]) = join sep (l ++ [x]) +:+ s.
Proof.
  destruct l as [|y l]; [done|].
  rewrite !join_snoc_eq by done. by rewrite !app_assoc.
Qed.

Lemma last_char x : x ≠ "" → ∃ y c, x = y +:+ String c "".
Proof.
  induction x as [|a x IH]; [done|]. intros _.
  destruct x as [|b x]; [by exists "", a|].
  destruct IH as (y & c & E); [done|]. exists (String a y), c.
  by rewrite app_cons, <- E.
Qed.

Lemma not_endswith_slash s x :
  valid_part x → endswith (s +:+ x) "/" = false.
Proof.
  intros (Hne & _ & Hc). destruct (last_char x Hne) as (y & c & ->).
  apply (endswith_differs _ "" "" c "/").
  - intros ->. rewrite count_app in Hc. simpl in Hc. lia.
  - rewrite <- app_assoc. apply endswith_app.
Qed.

Lemma truthy_app_r s t : t ≠ "" → truthy (s +:+ t) = true.
Proof. intros Ht. destruct s; [by destruct t|done]. Qed.

Lemma to_str_snoc rt (l : list string) x :
  x ≠ "" → to_str (mk rt (l ++ [x])) = rt +:+ join "/" (l ++ [x]).
Proof.
  intros Hx. unfold to_str. cbn [root tail].
  destruct (join_snoc "/" l x) as [pre ->].
  rewrite <- app_assoc. by rewrite truthy_app_r.
Qed.

Lemma of_str_component pre rt x :
  valid_part x →
  (pre = "./" ∧ rt = "" ∨ pre = "/" ∧ rt = "/" ∨ pre = "//" ∧ rt = "//") →
  of_str (pre +:+ x) = mk rt [x].
Proof.
  intros (Hne & Hdot & Hc) Hpre.
  destruct x as [|c x']; [done|].
  assert (c ≠ "/"%char) as Hcc by (intros ->; simpl in Hc; lia).
  assert (List.filter keep_part (split "/" (String c x')) = [String c x']) as Hs.
  { rewrite split_free by done. simpl.
    by rewrite (proj2 (keep_part_true (String c x'))). }
  destruct Hpre as [[-> ->]|[[-> ->]|[-> ->]]].
  - change ("./" +:+ String c x') with (String "." (String "/" (String c x'))).
    unfold of_str. rewrite splitroot_relative by done.
    change (String "." (String "/" (String c x')))
      with ("." +:+ String "/" (String c x')).
    rewrite split_app_sep by done. cbn [List.filter].
    change (keep_part ".") with false. cbv iota. by rewrite Hs.
  - change ("/" +:+ String c x') with (String "/" (String c x')).
    unfold of_str, splitroot.
    cbn [slice_to slice_from String.eqb Ascii.eqb Bool.eqb andb negb orb].
    destruct (Ascii.eqb_spec c "/"); [done|]. cbn [andb negb orb].
    by rewrite Hs.
  - change ("//" +:+ String c x') with (String "/" (String "/" (String c x'))).
    unfold of_str, splitroot.
    cbn [slice_to slice_from String.eqb Ascii.eqb Bool.eqb andb negb orb].
    destruct (Ascii.eqb_spec c "/"); [done|]. cbn [andb negb orb].
    by rewrite Hs.
Qed.

(** [p / x] for a parsed path and a component is the path with the
    component added. *)
Lemma joinpath_valid q x :
  valid_path q → valid_part x → joinpath q x = mk (root q) (tail q ++ [x]).
Proof.
  intros [Hroot Htail] Hx. pose proof Hx as (Hne & Hdot & Hc).
  destruct q as [rt tl]. simpl in *. unfold joinpath.
  destruct tl as [|y l].
  - destruct Hroot as [->|[->| ->]].
    + change (to_str (mk "" [])) with ".".
      change (endswith "." "/") with false. cbv iota zeta.
      rewrite <- (app_assoc "." "/" x). apply of_str_component; [done|].
      by left.
    + change (to_str (mk "/" [])) with "/".
      change (endswith "/" "/") with true. cbv iota zeta.
      apply of_str_component; [done|]. right. by left.
    + change (to_str (mk "//" [])) with "//".
      change (endswith "//" "/") with true. cbv iota zeta.
      apply of_str_component; [done|]. right. by right.
  - destruct (@exists_last _ (y :: l)) as (l' & z & El); [done|].
    rewrite El in *. apply Forall_app in Htail as [Hl' Hz].
    apply Forall_cons in Hz as [Hz _].
    rewrite to_str_snoc by apply Hz.
    assert (endswith (rt +:+ join "/" (l' ++ [z])) "/" = false) as ->.
    { destruct (join_snoc "/" l' z) as [pre ->].
      rewrite <- app_assoc. by apply not_endswith_slash. }
    rewrite (app_assoc rt (join "/" (l' ++ [z])) ("/" +:+ x)).
    rewrite <- (join_snoc_eq "/" (l' ++ [z]) x) by (by destruct l').
    rewrite <- (to_str_snoc rt (l' ++ [z]) x) by done.
    apply of_to_str. split; [done|]. cbn [tail].
    apply Forall_app. split; [|by constructor].
    apply Forall_app. split; [done|by constructor].
Qed.

(** X20: the virtual file of a feature file has the path of the feature
    file with the document suffix in place of the feature suffix, and its
    url is that path without the suffix, followed by [/index.html]. *)
Theorem virtual_file_of_feature
    (cwd site_dir : string) (p : Path.t) (parts : list string) (x : string) :
  valid_path p →
  tail p = parts ++ [x +:+ ".feature"] →
  x ≠ "" → x ≠ "." →
  _build_feature_files cwd site_dir [p] =
  Ok [mkFile (to_str (mk (root p) (parts ++ [x])) +:+ ".md") cwd site_dir
             (to_str (mk (root p) (parts ++ [x])) +:+ "/index.html")].
Proof.
  intros Hv Htail Hx Hdot. unfold _build_feature_files. cbn [mapM].
  rewrite (with_suffix_named p parts x "feature" ".md") by done.
  cbn [mbind result_bind mret result_ret].
  destruct Hv as [Hroot Hparts]. rewrite Htail in Hparts.
  apply Forall_app in Hparts as [Hparts Hlast].
  apply Forall_cons in Hlast as [(_ & _ & Hc) _].
  rewrite count_app in Hc.
  assert (valid_part x) as Hvx by (split; [done|split; [done|lia]]).
  assert (parent p = mk (root p) parts) as ->.
  { unfold parent. rewrite Htail, removelast_last. by destruct parts. }
  rewrite (stem_last p parts x "feature" Htail) by done.
  rewrite joinpath_valid by done. cbn [root tail].
  rewrite (to_str_snoc (root p) parts (x +:+ ".md"))
    by (apply app_cons_ne; simpl; lia).
  rewrite join_last_app, <- app_assoc.
  by rewrite <- (to_str_snoc (root p) parts x) by done.
Qed.

End VirtualFile.

Lemma virtual_file_of_feature_witness :
  valid_path (Path.mk "" ["features"; "group"; "b.feature"]) ∧
  _build_feature_files "/docs" "site" [Path.mk "" ["features"; "group"; "b.feature"]] =
  Ok [mkFile "features/group/b.md" "/docs" "site" "features/group/b/index.html"].
Proof.
  assert (valid_path (Path.mk "" ["features"; "group"; "b.feature"])) as H.
  { split; [by left|]. repeat constructor; done. }
  split; [exact H|].
  exact (virtual_file_of_feature "/docs" "site"
           (Path.mk "" ["features"; "group"; "b.feature"])
           ["features"; "group"] "b" H eq_refl
           ltac:(discriminate) ltac:(discriminate)).
Defined.

(** The features directory is not under the working directory: the nested
    run has been made, and the hook raises. *)
Example features_dir_outside_cwd :
  on_files (fun w => (w, None))
    (mkPlugin (mkConfig "/other/features" "Features" true true) [] ∅)
    "/docs" "site" [] [] [] (mkWorld ["mkdocs"; "build"] None ∅ []) =
  Raise (ValueError "not in the subpath").
Proof. reflexivity. Qed.
